(** * loki-client-go: batching, dispatching and delivery of log entries

    A shallow embedding of [loki/batch.go], [loki/client.go] and
    [pkg/logproto/logproto.go], and the properties of the batch, the
    dispatcher loop, the sender and [Handle].

    Conventions.
    - Go strings are byte strings: [string], with [String.length] the byte
      length that Go's [len] returns.
    - Go [int], [int64] and [time.Duration] are [Z].  The only arithmetic on
      them is adding string lengths, adding clock readings and one division
      by ten; a batch keeps every counted byte in memory, so no sum reaches
      the 64-bit range and the wrap-around is left out.  Go's [/] truncates
      towards zero: [Z.quot].
    - A Go map is a [gmap]; [range] over a map visits [map_to_list] of it.
      Go leaves the order open, and no statement below depends on it.
    - [time.Now()] reads the clock of the [World]; time passes only where the
      code blocks (in [select], in the HTTP round trip, in [backoff.Wait]). *)

From Stdlib Require Import ZArith Lia.
From stdpp Require Import gmap strings list fin_maps vector pretty.

Open Scope Z_scope.

(** ** pkg/logproto *)

Module logproto.

(** [type Value [2]string]: an array of exactly two strings, the timestamp
    at index 0 and the line at index 1. *)
Abbreviation Value := (vec string 2).

(** [model.LabelSet], a map from label names to label values. *)
Abbreviation LabelSet := (gmap string string).

Record Stream := mkStream {
  Labels : LabelSet;
  Values : list Value
}.

Record PushRequest := mkPushRequest {
  Streams : list Stream
}.

End logproto.
Import logproto.

(** Go's [len] of a string and of an array. *)
Definition len_string (s : string) : Z := Z.of_nat (String.length s).
Definition len_array {n} (v : vec string n) : Z := Z.of_nat (length (vec_to_list v)).

(** [type entry struct] of client.go. *)
Record entry := mkEntry {
  tenantID : string;
  labels : LabelSet;
  value : Value
}.

(** [type batch struct] of batch.go; [createdAt] in nanoseconds. *)
Record batch := mkBatch {
  streams : gmap string Stream;
  bytes : Z;
  createdAt : Z
}.

(** The errors of the delivery path: from [json.Marshal], from the
    transport, and the "server returned HTTP status" error of [send]. *)
Inductive error :=
  | ErrMarshal
  | ErrTransport
  | ErrStatus (code : Z).

(** ** loki/client.go: configuration and constants *)

Definition JSONContentType : string := "application/json".
Definition ReservedLabelTenantID : string := "__tenant_id__".
Definition Version : string := "0.0.1".
Definition UserAgent : string := "LokiGoClient/" +:+ Version.

Definition Millisecond : Z := 1000000.

(** Go maps are references.  The label sets that [Handle] receives, builds
    and stores live in a store of map objects; [nil] and a fresh address
    both read as the empty map. *)
Abbreviation ref := positive.
Abbreviation store := (gmap ref LabelSet).

Record BackoffConfig := mkBackoffConfig {
  MinBackoff : Z;
  MaxBackoff : Z;
  MaxRetries : Z
}.

(** The fields of [Config] that client.go reads. *)
Record Config := mkConfig {
  URL : string;
  BatchWait : Z;
  BatchSize : Z;
  TenantID : string;
  Timeout : Z;
  Backoff_Config : BackoffConfig;
  ExternalLabels : ref
}.

(** ** pkg/backoff *)

(** Modelled from the spec: package [pkg/backoff] ([New], [Ongoing], [Wait])
    is not among the sources.  The spec describes it as a generator of retry
    delays with a retry budget that reports whether retries remain: a
    counter of the waits so far, compared with [MaxRetries].  The time a
    [Wait] sleeps is part of the round trip that precedes it (see
    [Exchange]). *)
Record Backoff := mkBackoff {
  backoff_cfg : BackoffConfig;
  numRetries : Z
}.

(** Modelled from the spec: [backoff.New], a policy that has not waited
    yet. *)
Definition backoff_New (cfg : BackoffConfig) : Backoff := mkBackoff cfg 0.

(** Modelled from the spec: [Ongoing] reports whether retries remain. *)
Definition Ongoing (b : Backoff) : bool := numRetries b <? MaxRetries (backoff_cfg b).

(** Modelled from the spec: [Wait] advances the policy by one retry. *)
Definition Wait (b : Backoff) : Backoff := mkBackoff (backoff_cfg b) (numRetries b + 1).

(** ** The world outside the client *)

(** What [c.client.Do(req)] gives back: an error (no connection, timeout) or
    a response with its status code. *)
Inductive RoundTrip :=
  | ConnError
  | Response (StatusCode : Z).

(** One request as the server side plays it: the outcome, and the time that
    passes until the sender goes on (the round trip and, when the attempt is
    retried, the sleep of [backoff.Wait]). *)
Record Exchange := mkExchange {
  outcome : RoundTrip;
  elapsed : N
}.

(** An HTTP request as [send] builds it. *)
Record Request := mkRequest {
  req_method : string;
  req_url : string;
  req_header : gmap string string;
  req_body : string
}.

(** The three things [sendBatch] logs: "error encoding batch", "error
    sending batch, will retry" and "final error sending batch". *)
Inductive LogLine :=
  | LogEncodingError (err : error)
  | LogWillRetry (status entriesCount : Z) (err : option error)
  | LogFinalError (status entriesCount : Z) (err : error).

(** [now] is the clock (nanoseconds), [server] the exchanges still to come
    (a server with nothing left to play refuses the connection), [requests]
    the requests issued so far and [logs] the lines logged so far. *)
Record World := mkWorld {
  now : Z;
  server : list Exchange;
  requests : list Request;
  logs : list LogLine
}.

(** [level.Warn(c.logger).Log(...)] and [level.Error(c.logger).Log(...)] *)
Definition log (w : World) (l : LogLine) : World :=
  mkWorld (now w) (server w) (requests w) (logs w ++ [l]).

(** [d] nanoseconds pass. *)
Definition sleep (d : N) (w : World) : World :=
  mkWorld (now w + Z.of_N d) (server w) (requests w) (logs w).

(** [c.client.Do(req)]: the request goes out and the next exchange of the
    server is played.  The deadline that [send] sets from [c.cfg.Timeout]
    shows in the exchanges: an attempt that runs into it is a [ConnError]. *)
Definition Do (req : Request) (w : World) : World * RoundTrip :=
  match server w with
  | [] => (mkWorld (now w) [] (requests w ++ [req]) (logs w), ConnError)
  | x :: rest =>
      (mkWorld (now w + Z.of_N (elapsed x)) rest (requests w ++ [req]) (logs w), outcome x)
  end.

(** Why [sendBatch] was called, for the record of calls kept in [State]. *)
Inductive Cause := Overflow | Aged | Drain.

Record Flush := mkFlush {
  fl_tenant : string;
  fl_batch : batch;
  fl_cause : Cause;
  fl_at : Z
}.

(** The state of [run]: the local map [batches], the world, and a record of
    the [sendBatch] calls made so far (which batch, for which tenant, why,
    and the clock when the call started).  The record is bookkeeping of the
    model: the code never reads it. *)
Record State := mkState {
  batches : gmap string batch;
  world : World;
  flushed : list Flush
}.

(** What [select] receives: an entry from [c.entries] or a tick of
    [maxWaitCheck]; the quit signal ends the loop and is handled by [run]. *)
Inductive Event :=
  | Entry (e : entry)
  | Tick.

(** ** Label sets as shared maps *)

(** Reading the map at [l]. *)
Definition deref (h : store) (l : ref) : LabelSet := default ∅ (h !! l).

(** [make(LabelSet, n)] filled with [m]: a map at an address not in use. *)
Definition alloc (h : store) (m : LabelSet) : store * ref :=
  let l := fresh (dom h) in (<[l := m]> h, l).

(** Modelled from the spec: [LabelSet.Merge] of the label library is not
    among the sources.  It returns a new map in which the call's labels
    [other] are layered on top of the receiver's. *)
Definition Merge (h : store) (l other : ref) : store * ref :=
  alloc h (deref h other ∪ deref h l).

(** Modelled from the spec: [LabelSet.Clone] of the label library is not
    among the sources.  It returns a copy, a new map with the same
    bindings. *)
Definition Clone (h : store) (l : ref) : store * ref :=
  alloc h (deref h l).

(** The builtin [delete(m, key)] on the map at [l]. *)
Definition delete_key (h : store) (l : ref) (key : string) : store :=
  <[l := delete key (deref h l)]> h.

(** The client as the goroutines share it: [quit] (is the channel closed),
    [once] (has the [sync.Once] run), [wg] (the wait-group counter, 1 until
    [run] returns) and the state of the dispatcher goroutine. *)
Record Client := mkClient {
  quit : bool;
  once : bool;
  wg : Z;
  dispatcher : State
}.

Section Client.

(** [model.LabelSet.String] renders a label set as text; it belongs to the
    label library, not to this package, and the batch only uses its result
    as a map key. *)
Variable LabelSet_String : LabelSet → string.

(** [encoding/json.Marshal] on a push request. *)
Variable json_Marshal : PushRequest → string + error.

(** The configuration of the client, [c.cfg]. *)
Variable c : Config.

(** ** loki/batch.go *)

(** [func (b *batch) add(entry entry)]: the key is
    [entry.labels.String()]. *)
Definition add (b : batch) (e : entry) : batch :=
  let bytes' := bytes b + len_string (value e !!! 1%fin) in
  let key := LabelSet_String (labels e) in
  match streams b !! key with
  | Some stream =>
      mkBatch (<[key := mkStream (Labels stream) (Values stream ++ [value e])]> (streams b))
              bytes' (createdAt b)
  | None =>
      mkBatch (<[key := mkStream (labels e) [value e]]> (streams b))
              bytes' (createdAt b)
  end.

(** [func newBatch(entries ...entry)]; [now] is what [time.Now()]
    returns. *)
Definition newBatch (now : Z) (entries : list entry) : batch :=
  fold_left add entries (mkBatch ∅ 0 now).

(** [func (b *batch) sizeBytes() int] *)
Definition sizeBytes (b : batch) : Z := bytes b.

(** [func (b *batch) sizeBytesAfter(entry entry) int]: [len(entry.value)]
    is the length of the array. *)
Definition sizeBytesAfter (b : batch) (e : entry) : Z :=
  bytes b + len_array (value e).

(** [func (b *batch) age() time.Duration], at clock reading [now]. *)
Definition age (now : Z) (b : batch) : Z := now - createdAt b.

(** [func (b *batch) createPushRequest()], returning the request and the
    number of entries. *)
Definition createPushRequest (b : batch) : PushRequest * Z :=
  fold_left
    (λ (acc : PushRequest * Z) (kv : string * Stream),
       (mkPushRequest (Streams acc.1 ++ [kv.2]),
        acc.2 + Z.of_nat (length (Values kv.2))))
    (map_to_list (streams b))
    (mkPushRequest [], 0).

(** [func (b *batch) encodeJSON() ([]byte, int, error)] *)
Definition encodeJSON (b : batch) : string * Z * option error :=
  let '(req, entriesCount) := createPushRequest b in
  match json_Marshal req with
  | inr err => ("", 0, Some err)
  | inl buf => (buf, entriesCount, None)
  end.

(** ** loki/client.go: the sender *)

(** The request that [send] builds: a POST of the payload with the content
    type, the user agent and, only for a non-empty tenant, the tenant
    header.  [http.NewRequest] cannot fail on the URL of a validated
    configuration. *)
Definition newRequest (tenantID : string) (buf : string) : Request :=
  let header := <["User-Agent" := UserAgent]> (<["Content-Type" := JSONContentType]> ∅) in
  let header :=
    if decide (tenantID ≠ "") then <["X-Scope-OrgID" := tenantID]> header else header in
  mkRequest "POST" (URL c) header buf.

(** [func (c *Client) send(ctx, tenantID string, buf []byte) (int, error)];
    the text of the status error is left out. *)
Definition send (tenantID : string) (buf : string) (w : World) : World * Z * option error :=
  let req := newRequest tenantID buf in
  let '(w', resp) := Do req w in
  match resp with
  | ConnError => (w', -1, Some ErrTransport)
  | Response StatusCode =>
      (w', StatusCode,
       if negb (StatusCode `quot` 100 =? 2) then Some (ErrStatus StatusCode) else None)
  end.

(** The test of the retry loop: [status > 0 && status != 429 && status/100 != 5]
    leaves the loop. *)
Definition leaves_loop (status : Z) : bool :=
  (0 <? status) && negb (status =? 429) && negb (status `quot` 100 =? 5).

(** The loop [for backoff.Ongoing() { ... backoff.Wait() }] of [sendBatch].
    [fuel] bounds the iterations; [sendBatch] passes the whole retry
    budget, so the loop always ends on its own test (see
    [retry_loop_fuel]). *)
Fixpoint retry_loop (fuel : nat) (tenantID buf : string) (entriesCount : Z)
    (backoff : Backoff) (w : World) (status : Z) (err : option error)
    : World * Z * option error :=
  match fuel with
  | O => (w, status, err)
  | S fuel' =>
      if Ongoing backoff then
        let '(w1, status1, err1) := send tenantID buf w in
        if leaves_loop status1 then (w1, status1, err1)
        else
          retry_loop fuel' tenantID buf entriesCount (Wait backoff)
            (log w1 (LogWillRetry status1 entriesCount err1)) status1 err1
      else (w, status, err)
  end.

(** [func (c *Client) sendBatch(tenantID string, batch *batch)] *)
Definition sendBatch (tenantID : string) (b : batch) (w : World) : World :=
  let '(buf, entriesCount, err) := encodeJSON b in
  match err with
  | Some err => log w (LogEncodingError err)
  | None =>
      let backoff := backoff_New (Backoff_Config c) in
      let '(w', status, err) :=
        retry_loop (Z.to_nat (MaxRetries (Backoff_Config c))) tenantID buf entriesCount
          backoff w 0 None in
      match err with
      | Some err => log w' (LogFinalError status entriesCount err)
      | None => w'
      end
  end.

(** ** loki/client.go: the dispatcher loop *)

(** The ticker period computed at the start of [run]. *)
Definition maxWaitCheckFrequency : Z :=
  let minWaitCheckFrequency := 10 * Millisecond in
  let maxWaitCheckFrequency := BatchWait c `quot` 10 in
  if maxWaitCheckFrequency <? minWaitCheckFrequency
  then minWaitCheckFrequency else maxWaitCheckFrequency.

(** [c.sendBatch(tenantID, batch)] as [run] calls it. *)
Definition flush (why : Cause) (tenantID : string) (b : batch) (st : State) : State :=
  mkState (batches st)
          (sendBatch tenantID b (world st))
          (flushed st ++ [mkFlush tenantID b why (now (world st))]).

(** [case e := <-c.entries:] *)
Definition onEntry (e : entry) (st : State) : State :=
  match batches st !! tenantID e with
  | None =>
      mkState (<[tenantID e := newBatch (now (world st)) [e]]> (batches st))
              (world st) (flushed st)
  | Some b =>
      if BatchSize c <? sizeBytesAfter b e then
        let st1 := flush Overflow (tenantID e) b st in
        mkState (<[tenantID e := newBatch (now (world st1)) [e]]> (batches st1))
                (world st1) (flushed st1)
      else
        mkState (<[tenantID e := add b e]> (batches st))
                (world st) (flushed st)
  end.

(** The body of the loop of [case <-maxWaitCheck.C:] for one batch. *)
Definition checkAge (st : State) (kv : string * batch) : State :=
  let '(tenantID, b) := kv in
  if age (now (world st)) b <? BatchWait c then st
  else
    let st1 := flush Aged tenantID b st in
    mkState (delete tenantID (batches st1)) (world st1) (flushed st1).

(** [case <-maxWaitCheck.C:] *)
Definition onTick (st : State) : State :=
  fold_left checkAge (map_to_list (batches st)) st.

(** The deferred function of [run]: send all pending batches. *)
Definition drain (st : State) : State :=
  fold_left (λ st (kv : string * batch), flush Drain kv.1 kv.2 st)
            (map_to_list (batches st)) st.

(** The dispatcher blocked in [select] for [d] nanoseconds. *)
Definition idle (d : N) (st : State) : State :=
  mkState (batches st) (sleep d (world st)) (flushed st).

(** One turn of the loop: the case that [select] takes. *)
Definition handle (ev : Event) (st : State) : State :=
  match ev with
  | Entry e => onEntry e st
  | Tick => onTick st
  end.

(** The [for { select { ... } }] of [run] over the events it receives, each
    with the time the dispatcher waited for it. *)
Definition select_loop (st : State) (evs : list (N * Event)) : State :=
  fold_left (λ st (dev : N * Event), handle dev.2 (idle dev.1 st)) evs st.

(** [func (c *Client) run()]: the loop handles [evs], then, after [d] more
    nanoseconds, receives from [c.quit] and returns through the deferred
    drain. *)
Definition run (w : World) (evs : list (N * Event)) (d : N) : State :=
  drain (idle d (select_loop (mkState ∅ w []) evs)).

(** ** loki/client.go: Handle *)

(** [func (c *Client) getTenantID(labels model.LabelSet) string] *)
Definition getTenantID (labels : LabelSet) : string :=
  match labels !! ReservedLabelTenantID with
  | Some value => value
  | None => if decide (TenantID c ≠ "") then TenantID c else ""
  end.

(** [func (c *Client) Handle(ls model.LabelSet, t time.Time, s string) error]
    up to the send on [c.entries]: the store after the call, the address
    of the label set of the entry, and the entry that is sent ([t] is
    [t.UnixNano()]).  The returned error is always [nil]. *)
Definition Handle (h : store) (ls : ref) (t : Z) (s : string) : store * ref * entry :=
  let '(h, ls) :=
    if 0 <? Z.of_nat (size (deref h (ExternalLabels c)))
    then Merge h (ExternalLabels c) ls else (h, ls) in
  let tenantID := getTenantID (deref h ls) in
  let '(h, ls) :=
    match deref h ls !! ReservedLabelTenantID with
    | Some _ =>
        let '(h, ls) := Clone h ls in
        (delete_key h ls ReservedLabelTenantID, ls)
    | None => (h, ls)
    end in
  (h, ls, mkEntry tenantID (deref h ls) [# pretty t; s]).

(** ** loki/client.go: Stop *)

(** [NewWithLogger] after validation: [c.wg.Add(1); go c.run()]. *)
Definition NewWithLogger (w : World) : Client :=
  mkClient false false 1 (mkState ∅ w []).

(** [close(c.quit)]; closing a closed channel panics ([None]). *)
Definition close_quit (cl : Client) : option Client :=
  if quit cl then None
  else Some (mkClient true (once cl) (wg cl) (dispatcher cl)).

(** [c.once.Do(f)] *)
Definition once_Do (f : Client → option Client) (cl : Client) : option Client :=
  if once cl then Some cl
  else f (mkClient (quit cl) true (wg cl) (dispatcher cl)).

(** [c.wg.Wait()]: returns at once when the counter is zero; otherwise the
    caller is blocked while the dispatcher handles the events [evs] that
    [select] still picks, then, [d] nanoseconds later, the quit case, and
    returns through the deferred drain and [c.wg.Done()]. *)
Definition wg_Wait (evs : list (N * Event)) (d : N) (cl : Client) : Client :=
  if wg cl =? 0 then cl
  else
    mkClient (quit cl) (once cl) (wg cl - 1)
      (drain
         (idle d (select_loop (dispatcher cl) evs))).

(** [func (c *Client) Stop()] *)
Definition Stop (evs : list (N * Event)) (d : N) (cl : Client) : option Client :=
  wg_Wait evs d <$> once_Do close_quit cl.

(** ** Vocabulary of the statements *)

(** The key under which [add] files an entry: its serialized label set. *)
Definition key_of (e : entry) : string := LabelSet_String (labels e).

(** The line of an entry, [entry.value[1]]. *)
Definition line_of (e : entry) : string := value e !!! 1%fin.

(** The entries of [es] filed under key [k], in arrival order. *)
Definition with_key (k : string) (es : list entry) : list entry :=
  filter (λ e, key_of e = k) es.

Definition total_line_bytes (es : list entry) : Z :=
  foldr (λ e n, len_string (line_of e) + n) 0 es.

(** The (serialized label set, value) pairs held by a batch, carried by a
    push request, and contributed by an entry. *)
Definition batch_pairs (b : batch) : list (string * Value) :=
  map_to_list (streams b) ≫= λ kv, (λ v, (kv.1, v)) <$> Values kv.2.

Definition request_pairs (req : PushRequest) : list (string * Value) :=
  Streams req ≫= λ s, (λ v, (LabelSet_String (Labels s), v)) <$> Values s.

Definition entry_pair (e : entry) : string * Value := (key_of e, value e).

(** Every stream of the batch is filed under the serialization of its own
    labels. *)
Definition keyed (b : batch) : Prop :=
  ∀ k s, streams b !! k = Some s → LabelSet_String (Labels s) = k.

(** The label set a stream carries is the one of the first entry filed
    under its key. *)
Definition first_labels (es : list entry) (k : string) : LabelSet :=
  from_option labels ∅ (head (with_key k es)).

Definition request_entries (req : PushRequest) : list (LabelSet * Value) :=
  Streams req ≫= λ s, (λ v, (Labels s, v)) <$> Values s.

(** The retries left to a backoff. *)
Definition remaining (bk : Backoff) : nat :=
  Z.to_nat (MaxRetries (backoff_cfg bk) - numRetries bk).

(** The (tenant, serialized label set, value) items of a recorded
    [sendBatch] call, of all recorded calls, of the pending batches, and of
    an entry. *)
Definition flush_items (fl : Flush) : list (string * (string * Value)) :=
  (λ p, (fl_tenant fl, p)) <$> batch_pairs (fl_batch fl).

Definition flushed_items (st : State) : list (string * (string * Value)) :=
  flushed st ≫= flush_items.

Definition map_items (m : gmap string batch) : list (string * (string * Value)) :=
  map_to_list m ≫= λ kv, (λ p, (kv.1, p)) <$> batch_pairs kv.2.

Definition pending_items (st : State) : list (string * (string * Value)) :=
  map_items (batches st).

Definition entry_item (e : entry) : string * (string * Value) :=
  (tenantID e, entry_pair e).

(** The entries among the events that the loop received. *)
Definition entries_of (evs : list (N * Event)) : list entry :=
  omap (λ dev : N * Event, match dev.2 with Entry e => Some e | Tick => None end) evs.

(** A recorded call made by the age check was made on a batch of age at
    least [BatchWait]. *)
Definition old_enough (fl : Flush) : Prop :=
  fl_cause fl = Aged → BatchWait c ≤ age (fl_at fl) (fl_batch fl).

(** A recorded call whose batch encodes has put a request with that
    payload, for that tenant, on the wire. *)
Definition attempted (w : World) (fl : Flush) : Prop :=
  ∀ buf n, encodeJSON (fl_batch fl) = (buf, n, None) →
           newRequest (fl_tenant fl) buf ∈ requests w.

Definition all_attempted (st : State) : Prop :=
  Forall (attempted (world st)) (flushed st).

(** The label set [Handle] works on after its first step: the caller's
    labels, layered on top of the external labels when there are any. *)
Definition merged_labels (h : store) (ls : ref) : LabelSet :=
  if 0 <? Z.of_nat (size (deref h (ExternalLabels c)))
  then deref h ls ∪ deref h (ExternalLabels c)
  else deref h ls.

(** ** Vocabulary of the further properties *)

(** What [send] returns for an exchange of the server: the status and the
    error. *)
Definition reply (x : Exchange) : Z * option error :=
  match outcome x with
  | ConnError => (-1, Some ErrTransport)
  | Response code => (code, if code `quot` 100 =? 2 then None else Some (ErrStatus code))
  end.

(** An exchange after which the loop of [sendBatch] goes on. *)
Definition retried (x : Exchange) : Prop := leaves_loop (reply x).1 = false.

(** The warning [sendBatch] logs after a retried exchange. *)
Definition warning (entriesCount : Z) (x : Exchange) : LogLine :=
  LogWillRetry (reply x).1 entriesCount (reply x).2.

(** The time a list of exchanges takes. *)
Definition duration (xs : list Exchange) : Z :=
  foldr (λ x d, Z.of_N (elapsed x) + d) 0 xs.

(** A batch of tenant [t] as the dispatcher makes them: [newBatch] on one
    or more entries of that tenant (an [add] is one more entry). *)
Definition built (t : string) (b : batch) : Prop :=
  ∃ now es, es ≠ [] ∧ b = newBatch now es ∧ Forall (λ e, tenantID e = t) es.

(** Every batch of the state, pending or handed to [sendBatch], with its
    tenant, satisfies [P]. *)
Definition every_batch (P : string → batch → Prop) (st : State) : Prop :=
  (∀ t b, batches st !! t = Some b → P t b)
  ∧ Forall (λ fl, P (fl_tenant fl) (fl_batch fl)) (flushed st).

(** No pending batch was created after the present clock. *)
Definition created_before_now (st : State) : Prop :=
  ∀ t b, batches st !! t = Some b → createdAt b ≤ now (world st).

(** The values a batch holds under key [k], in the order of its stream. *)
Definition stream_values (b : batch) (k : string) : list Value :=
  from_option Values [] (streams b !! k).

(** The values under key [k] of the batches handed to [sendBatch] for tenant
    [t], call after call; those of the tenant's pending batch; and those of
    the entries of that tenant and key, in arrival order. *)
Definition sent_values (t k : string) (fls : list Flush) : list Value :=
  fls ≫= λ fl, if decide (fl_tenant fl = t) then stream_values (fl_batch fl) k else [].

Definition pending_values (t k : string) (st : State) : list Value :=
  from_option (λ b, stream_values b k) [] (batches st !! t).

Definition arrived (t k : string) (es : list entry) : list Value :=
  value <$> filter (λ e, tenantID e = t ∧ key_of e = k) es.

(** A batch whose entries before the last, if any, passed the size test of
    the dispatcher: their lines and the 2 of [sizeBytesAfter] fit in
    [BatchSize]. *)
Definition within_limit (t : string) (b : batch) : Prop :=
  ∃ now es e, b = newBatch now (es ++ [e])
    ∧ (es ≠ [] → total_line_bytes es + 2 ≤ BatchSize c).

(** A batch sent for its size was too full for one more entry. *)
Definition was_full (fl : Flush) : Prop :=
  fl_cause fl = Overflow → BatchSize c < sizeBytes (fl_batch fl) + 2.

End Client.

(** ** Concrete inputs *)

(** A serializer and an encoder to run the model on concrete inputs: labels
    as [name=value] items in key order, and a payload that lists the number
    of values of each stream. *)
Definition String_plain (ls : LabelSet) : string :=
  "{" +:+ String.concat ", " ((λ kv : string * string, kv.1 +:+ "=" +:+ kv.2) <$> map_to_list ls) +:+ "}".

Definition Marshal_plain (req : PushRequest) : string + error :=
  inl (String.concat ";" ((λ s, String_plain (Labels s) +:+ pretty (length (Values s))) <$> Streams req)).

Definition cfg_ex : Config :=
  mkConfig "http://localhost:3100/loki/api/v1/push"
           (1000 * Millisecond) 10 "" (10000 * Millisecond)
           (mkBackoffConfig (100 * Millisecond) (10000 * Millisecond) 3) 1%positive.

Definition cfg_roomy : Config :=
  mkConfig "http://localhost:3100/loki/api/v1/push"
           (1000 * Millisecond) 1024 "" (10000 * Millisecond)
           (mkBackoffConfig (100 * Millisecond) (10000 * Millisecond) 3) 1%positive.

Definition entry_a : entry := mkEntry "a" {[ "job" := "app" ]} [# "1"; "x"].
Definition entry_b1 : entry := mkEntry "b" {[ "job" := "db" ]} [# "2"; "0123456789"].
Definition entry_b2 : entry := mkEntry "b" {[ "job" := "db" ]} [# "3"; "y"].
Definition entry_hello : entry := mkEntry "t" {[ "job" := "app" ]} [# "4"; "hello"].
Definition entry_1 : entry := mkEntry "" {[ "local_dev" := "host" ]} [# "1"; "line test 1"].
Definition entry_2 : entry := mkEntry "" {[ "local_dev" := "host" ]} [# "2"; "line test 2"].
Definition entry_3 : entry := mkEntry "" {[ "local_dev" := "host" ]} [# "3"; "line test 3"].

Definition batch_b1 : batch := newBatch String_plain 0 [entry_b1].
Definition batch_hello : batch := newBatch String_plain 0 [entry_hello].

(** A server that is down, one that answers 400, one that refuses the first
    connection, one that answers 500 twice and then 200, one that is prompt,
    and one whose first two answers (a 500 and a 200) take three and two
    seconds, backoff included. *)
Definition world_idle : World := mkWorld 0 [] [] [].
Definition world_400 : World := mkWorld 0 [mkExchange (Response 400) 5] [] [].
Definition world_conn : World :=
  mkWorld 0 [mkExchange ConnError 0; mkExchange (Response 200) 0] [] [].
Definition world_500_500_200 : World :=
  mkWorld 0 [mkExchange (Response 500) 1; mkExchange (Response 500) 1;
             mkExchange (Response 200) 1] [] [].
Definition world_prompt : World := mkWorld 0 [mkExchange (Response 204) 7] [] [].
Definition world_slow : World :=
  mkWorld 0 [mkExchange (Response 500) 3000000000; mkExchange (Response 200) 2000000000;
             mkExchange (Response 200) 0; mkExchange (Response 200) 0] [] [].

(** A dispatcher with a full batch pending for tenant [b]. *)
Definition st_full : State := mkState {[ "b" := batch_b1 ]} world_idle [].

(** A run in which the loop never waits in [select]: one entry for tenant
    [a], two for tenant [b], then a tick. *)
Definition events_late : list (N * Event) :=
  [(0%N, Entry entry_a); (0%N, Entry entry_b1); (0%N, Entry entry_b2); (0%N, Tick)].

Definition events_three : list (N * Event) :=
  [(0%N, Entry entry_1); (1%N, Entry entry_2); (1%N, Entry entry_3)].

(** Stores with no external labels (at address 1) and the caller's label set
    at address 2, with the reserved label set to [t1] and to the empty
    string. *)
Definition labels_t1 : LabelSet := {[ "__tenant_id__" := "t1"; "job" := "app" ]}.
Definition store_ex : store := {[ 1%positive := ∅; 2%positive := labels_t1 ]}.
Definition labels_empty_tenant : LabelSet := {[ "__tenant_id__" := ""; "job" := "app" ]}.
Definition store_empty_tenant : store := {[ 1%positive := ∅; 2%positive := labels_empty_tenant ]}.

(** An encoder that rejects every request. *)
Definition Marshal_refuse (req : PushRequest) : string + error := inr ErrMarshal.

Definition cfg_nowait : Config :=
  mkConfig "http://localhost:3100/loki/api/v1/push"
           0 1024 "" (10000 * Millisecond)
           (mkBackoffConfig (100 * Millisecond) (10000 * Millisecond) 3) 1%positive.

(** Exchanges: two 500s, a 200, and a server that answers 503 three times
    before a 200. *)
Definition two_500s : list Exchange :=
  [mkExchange (Response 500) 1; mkExchange (Response 500) 1].
Definition answer_200 : Exchange := mkExchange (Response 200) 1.
Definition three_503s : list Exchange :=
  [mkExchange (Response 503) 2; mkExchange (Response 503) 2; mkExchange (Response 503) 2].
Definition world_busy : World := mkWorld 0 (three_503s ++ [answer_200]) [] [].

(** The batch of the three test lines, as the drain of a run hands it to
    [sendBatch], and two ticks with no entry. *)
Definition batch_three : batch := newBatch String_plain 0 [entry_1; entry_2; entry_3].
Definition flush_three : Flush := mkFlush "" batch_three Drain 5.
Definition events_ticks : list (N * Event) := [(5%N, Tick); (7%N, Tick)].

(** * Properties *)

Section Facts.

Variable LabelSet_String : LabelSet → string.
Variable json_Marshal : PushRequest → string + error.
Variable c : Config.

Local Abbreviation add := (add LabelSet_String).
Local Abbreviation newBatch := (newBatch LabelSet_String).
Local Abbreviation encodeJSON := (encodeJSON json_Marshal).
Local Abbreviation newRequest := (newRequest c).
Local Abbreviation send := (send c).
Local Abbreviation retry_loop := (retry_loop c).
Local Abbreviation sendBatch := (sendBatch json_Marshal c).
Local Abbreviation maxWaitCheckFrequency := (maxWaitCheckFrequency c).
Local Abbreviation flush := (flush json_Marshal c).
Local Abbreviation onEntry := (onEntry LabelSet_String json_Marshal c).
Local Abbreviation checkAge := (checkAge json_Marshal c).
Local Abbreviation onTick := (onTick json_Marshal c).
Local Abbreviation drain := (drain json_Marshal c).
Local Abbreviation handle := (handle LabelSet_String json_Marshal c).
Local Abbreviation select_loop := (select_loop LabelSet_String json_Marshal c).
Local Abbreviation run := (run LabelSet_String json_Marshal c).
Local Abbreviation getTenantID := (getTenantID c).
Local Abbreviation Handle := (Handle c).
Local Abbreviation wg_Wait := (wg_Wait LabelSet_String json_Marshal c).
Local Abbreviation Stop := (Stop LabelSet_String json_Marshal c).
Local Abbreviation key_of := (key_of LabelSet_String).
Local Abbreviation with_key := (with_key LabelSet_String).
Local Abbreviation request_pairs := (request_pairs LabelSet_String).
Local Abbreviation entry_pair := (entry_pair LabelSet_String).
Local Abbreviation keyed := (keyed LabelSet_String).
Local Abbreviation first_labels := (first_labels LabelSet_String).
Local Abbreviation entry_item := (entry_item LabelSet_String).
Local Abbreviation old_enough := (old_enough c).
Local Abbreviation attempted := (attempted json_Marshal c).
Local Abbreviation all_attempted := (all_attempted json_Marshal c).
Local Abbreviation merged_labels := (merged_labels c).
Local Abbreviation built := (built LabelSet_String).
Local Abbreviation arrived := (arrived LabelSet_String).
Local Abbreviation within_limit := (within_limit LabelSet_String c).
Local Abbreviation was_full := (was_full c).

(** ** The batch *)

Lemma len_value (v : Value) : len_array v = 2.
Proof. unfold len_array. by rewrite length_vec_to_list. Qed.

Lemma add_bytes b e : bytes (add b e) = bytes b + len_string (line_of e).
Proof. unfold add. by destruct (streams b !! _). Qed.

Lemma add_createdAt b e : createdAt (add b e) = createdAt b.
Proof. unfold add. by destruct (streams b !! _). Qed.

Lemma add_streams b e :
  streams (add b e) =
    <[key_of e := match streams b !! key_of e with
                  | Some s => mkStream (Labels s) (Values s ++ [value e])
                  | None => mkStream (labels e) [value e]
                  end]> (streams b).
Proof. unfold add, key_of. by destruct (streams b !! _). Qed.

Lemma fold_add_bytes es b :
  bytes (fold_left add es b) = bytes b + total_line_bytes es.
Proof.
  revert b. induction es as [|e es IH]; intros b; simpl; [lia|].
  rewrite IH, add_bytes. lia.
Qed.

Lemma fold_add_createdAt es b : createdAt (fold_left add es b) = createdAt b.
Proof.
  revert b. induction es as [|e es IH]; intros b; simpl; [done|].
  by rewrite IH, add_createdAt.
Qed.

(** The stream filed under [k] after a run of [add]s: the old stream with
    the new values behind it, or a stream opened by the first entry. *)
Lemma fold_add_lookup es b k :
  streams (fold_left add es b) !! k =
    match streams b !! k with
    | Some s => Some (mkStream (Labels s) (Values s ++ (value <$> with_key k es)))
    | None => (λ e, mkStream (labels e) (value <$> with_key k es)) <$> head (with_key k es)
    end.
Proof.
  revert b. induction es as [|e es IH]; intros b.
  - simpl. destruct (streams b !! k) as [[ls vs]|]; [|done].
    simpl. by rewrite app_nil_r.
  - simpl. rewrite IH, add_streams. unfold with_key.
    destruct (decide (key_of e = k)) as [<-|Hne].
    + rewrite lookup_insert_eq, filter_cons_True by done.
      destruct (streams b !! key_of e) as [s|]; simpl.
      * by rewrite <-app_assoc.
      * done.
    + rewrite lookup_insert_ne, filter_cons_False by done.
      done.
Qed.

Lemma newBatch_lookup now es k :
  streams (newBatch now es) !! k =
    (λ e, mkStream (labels e) (value <$> with_key k es)) <$> head (with_key k es).
Proof. unfold newBatch. rewrite fold_add_lookup. simpl. by rewrite lookup_empty. Qed.

Lemma newBatch_app now seeded appended :
  fold_left add appended (newBatch now seeded) = newBatch now (seeded ++ appended).
Proof. unfold newBatch. by rewrite fold_left_app. Qed.

Lemma newBatch_dom now es :
  dom (streams (newBatch now es)) = list_to_set (key_of <$> es).
Proof.
  apply set_eq. intros k.
  rewrite elem_of_dom, newBatch_lookup, fmap_is_Some, head_is_Some.
  rewrite elem_of_list_to_set, list_elem_of_fmap. split.
  - intros Hne. destruct (with_key k es) as [|e l] eqn:Hl; [done|].
    assert (e ∈ with_key k es) as He by (rewrite Hl; left).
    apply list_elem_of_filter in He as [Hk He]. eauto.
  - intros (e & -> & He) Hnil.
    assert (e ∈ with_key (key_of e) es) as He'
      by (apply list_elem_of_filter; done).
    rewrite Hnil in He'. by apply not_elem_of_nil in He'.
Qed.

(** ** The pairs of a batch and of its push request *)

Lemma createPushRequest_fold (l : list (string * Stream)) req0 n0 :
  fold_left
    (λ (acc : PushRequest * Z) (kv : string * Stream),
       (mkPushRequest (Streams acc.1 ++ [kv.2]),
        acc.2 + Z.of_nat (length (Values kv.2))))
    l (req0, n0)
  = (mkPushRequest (Streams req0 ++ l.*2),
     n0 + Z.of_nat (length (l ≫= λ kv, (λ v, (kv.1, v)) <$> Values kv.2))).
Proof.
  revert req0 n0. induction l as [|[k s] l IH]; intros req0 n0; simpl.
  - destruct req0. simpl. rewrite app_nil_r. f_equal. lia.
  - rewrite IH. simpl. rewrite <-app_assoc. simpl. f_equal.
    rewrite length_app, length_fmap. unfold mbind. lia.
Qed.

Lemma createPushRequest_eq b :
  createPushRequest b =
    (mkPushRequest ((map_to_list (streams b)).*2), Z.of_nat (length (batch_pairs b))).
Proof. unfold createPushRequest. rewrite createPushRequest_fold. simpl. f_equal. Qed.

Lemma batch_pairs_add b e : batch_pairs (add b e) ≡ₚ batch_pairs b ++ [entry_pair e].
Proof.
  unfold batch_pairs. rewrite add_streams.
  destruct (streams b !! key_of e) as [s|] eqn:Hs.
  - rewrite <-insert_delete_eq.
    rewrite map_to_list_insert by apply lookup_delete_eq.
    rewrite <-(map_to_list_delete (streams b) (key_of e) s) by done.
    rewrite !bind_cons. simpl. rewrite fmap_app. simpl.
    rewrite <-!app_assoc. apply Permutation_app_head.
    simpl. apply Permutation_cons_append.
  - rewrite map_to_list_insert by done.
    rewrite bind_cons. simpl. apply Permutation_cons_append.
Qed.

Lemma batch_pairs_fold es b :
  batch_pairs (fold_left add es b) ≡ₚ batch_pairs b ++ (entry_pair <$> es).
Proof.
  revert b. induction es as [|e es IH]; intros b; simpl.
  - by rewrite app_nil_r.
  - rewrite IH, batch_pairs_add, <-app_assoc. done.
Qed.

Lemma batch_pairs_newBatch now es : batch_pairs (newBatch now es) ≡ₚ entry_pair <$> es.
Proof.
  unfold newBatch. rewrite batch_pairs_fold. unfold batch_pairs. simpl.
  by rewrite map_to_list_empty.
Qed.

Lemma keyed_add b e : keyed b → keyed (add b e).
Proof.
  intros Hb k s. rewrite add_streams.
  destruct (decide (key_of e = k)) as [<-|Hne].
  - rewrite lookup_insert_eq. intros [= <-].
    destruct (streams b !! key_of e) as [s|] eqn:Hs; simpl; [|done].
    by apply Hb.
  - rewrite lookup_insert_ne by done. apply Hb.
Qed.

Lemma keyed_fold es b : keyed b → keyed (fold_left add es b).
Proof.
  revert b. induction es as [|e es IH]; intros b Hb; simpl; [done|].
  by apply IH, keyed_add.
Qed.

Lemma keyed_newBatch now es : keyed (newBatch now es).
Proof. apply keyed_fold. intros k s. simpl. by rewrite lookup_empty. Qed.

Lemma request_pairs_keyed b :
  keyed b → request_pairs (createPushRequest b).1 = batch_pairs b.
Proof.
  intros Hb. rewrite createPushRequest_eq. unfold request_pairs, batch_pairs. simpl.
  assert (Forall (λ kv : string * Stream, LabelSet_String (Labels kv.2) = kv.1)
                 (map_to_list (streams b))) as Hall.
  { apply Forall_forall. intros [k s] Hin. apply Hb. by apply elem_of_map_to_list. }
  induction Hall as [|[k s] l Hk _ IH]; [done|].
  rewrite fmap_cons, !bind_cons, IH. simpl in *. by rewrite Hk.
Qed.

Lemma newBatch_size now es :
  size (streams (newBatch now es)) = length (remove_dups (key_of <$> es)).
Proof.
  rewrite <-size_dom, newBatch_dom.
  rewrite <-(size_list_to_set (C := gset string) (remove_dups (key_of <$> es)))
    by apply NoDup_remove_dups.
  f_equal. apply set_eq. intros k.
  by rewrite !elem_of_list_to_set, elem_of_remove_dups.
Qed.

Lemma request_entries_newBatch now es :
  request_entries (createPushRequest (newBatch now es)).1 =
    (λ p : string * Value, (first_labels es p.1, p.2)) <$> batch_pairs (newBatch now es).
Proof.
  rewrite createPushRequest_eq. unfold request_entries, batch_pairs. simpl.
  assert (Forall (λ kv : string * Stream, Labels kv.2 = first_labels es kv.1)
                 (map_to_list (streams (newBatch now es)))) as Hall.
  { apply Forall_forall. intros [k s] Hin.
    apply elem_of_map_to_list in Hin. rewrite newBatch_lookup in Hin.
    unfold first_labels. simpl.
    destruct (head (with_key k es)) as [e0|]; simplify_eq/=; done. }
  induction Hall as [|[k s] l Hk _ IH]; [done|].
  rewrite fmap_cons, !bind_cons, IH, fmap_app. simpl in *. f_equal.
  rewrite <-list_fmap_compose. apply list_fmap_ext. intros _ v _. simpl.
  by rewrite Hk.
Qed.

Lemma first_labels_entry es e :
  (∀ e1 e2, e1 ∈ es → e2 ∈ es → key_of e1 = key_of e2 → labels e1 = labels e2) →
  e ∈ es → first_labels es (key_of e) = labels e.
Proof.
  intros Hinj He. unfold first_labels.
  assert (e ∈ with_key (key_of e) es) as Hin by (by apply list_elem_of_filter).
  destruct (with_key (key_of e) es) as [|e0 l] eqn:Hl.
  - by apply not_elem_of_nil in Hin.
  - simpl. assert (e0 ∈ with_key (key_of e) es) as H0 by (rewrite Hl; left).
    apply list_elem_of_filter in H0 as [Hk H0]. by apply Hinj.
Qed.

(** C4: for every sequence of entries put into one batch, by seeding
    [newBatch] and by later [add]s, the stream filed under a serialized
    label set holds exactly the values of the entries with that
    serialization, in arrival order, under the labels of the first of
    them; there is one stream per distinct serialization; an [add] whose
    serialization is already filed extends that stream and opens no new
    one; and [sizeBytes] is the sum of the byte lengths of the lines. *)
Theorem batch_invariant (now : Z) (seeded appended : list entry) :
  let es := seeded ++ appended in
  let b := fold_left add appended (newBatch now seeded) in
  (∀ k, streams b !! k =
          (λ e, mkStream (labels e) (value <$> with_key k es)) <$> head (with_key k es))
  ∧ dom (streams b) = list_to_set (key_of <$> es)
  ∧ size (streams b) = length (remove_dups (key_of <$> es))
  ∧ (∀ e s, streams b !! key_of e = Some s →
       streams (add b e) =
         <[key_of e := mkStream (Labels s) (Values s ++ [value e])]> (streams b)
       ∧ dom (streams (add b e)) = dom (streams b))
  ∧ sizeBytes b = total_line_bytes es.
Proof.
  intros es b. subst b es. rewrite newBatch_app.
  split_and!.
  - intros k. apply newBatch_lookup.
  - apply newBatch_dom.
  - apply newBatch_size.
  - intros e s Hs. rewrite add_streams, Hs. split; [done|].
    rewrite dom_insert_L. apply elem_of_dom_2 in Hs.
    apply set_eq. intros k. rewrite elem_of_union, elem_of_singleton.
    split; [by intros [->|?]|by right].
  - unfold sizeBytes, newBatch. rewrite fold_add_bytes. simpl. lia.
Qed.

(** C8: the count that [encodeJSON] returns with the payload is the number
    of entries put into the batch; the push request that is marshalled
    carries exactly their (serialized label set, value) pairs, and, when
    the serialization tells the label sets of the entries apart, exactly
    their (label set, value) pairs. *)
Theorem encodeJSON_count (now : Z) (seeded appended : list entry) :
  let es := seeded ++ appended in
  let b := fold_left add appended (newBatch now seeded) in
  let req := (createPushRequest b).1 in
  (createPushRequest b).2 = Z.of_nat (length es)
  ∧ length (request_pairs req) = length es
  ∧ request_pairs req ≡ₚ entry_pair <$> es
  ∧ ((∀ e1 e2, e1 ∈ es → e2 ∈ es → key_of e1 = key_of e2 → labels e1 = labels e2) →
     request_entries req ≡ₚ (λ e, (labels e, value e)) <$> es)
  ∧ encodeJSON b =
      match json_Marshal req with
      | inl buf => (buf, Z.of_nat (length es), None)
      | inr err => ("", 0, Some err)
      end.
Proof.
  intros es b req. subst req b es. rewrite newBatch_app.
  set (es := seeded ++ appended). set (b := newBatch now es).
  assert (request_pairs (createPushRequest b).1 ≡ₚ entry_pair <$> es) as Hperm.
  { rewrite request_pairs_keyed by apply keyed_newBatch. apply batch_pairs_newBatch. }
  assert ((createPushRequest b).2 = Z.of_nat (length es)) as Hcount.
  { rewrite createPushRequest_eq. simpl. f_equal. unfold b.
    rewrite (Permutation_length (batch_pairs_newBatch now es)). apply length_fmap. }
  split_and!.
  - done.
  - rewrite (Permutation_length Hperm). apply length_fmap.
  - done.
  - intros Hinj. unfold b. rewrite request_entries_newBatch.
    rewrite (batch_pairs_newBatch now es), <-list_fmap_compose.
    match goal with |- ?X ≡ₚ ?Y => enough (X = Y) as -> by done end.
    apply list_fmap_ext. intros i e He. simpl.
    rewrite first_labels_entry; [done|done|].
    by apply list_elem_of_lookup_2 in He.
  - unfold encodeJSON. destruct (createPushRequest b) as [req n] eqn:Hreq.
    simpl in *. subst n. by destruct (json_Marshal req).
Qed.

(** ** Facts about the sender *)

Lemma leaves_loop_false (status : Z) :
  leaves_loop status = false ↔ status ≤ 0 ∨ status = 429 ∨ 500 ≤ status ≤ 599.
Proof.
  unfold leaves_loop.
  rewrite !andb_false_iff, !negb_false_iff, Z.ltb_ge, !Z.eqb_eq.
  assert (status `quot` 100 = 5 ↔ 500 ≤ status ≤ 599) as ->.
  { split.
    - intros H. pose proof (Z.quot_rem' status 100) as Hqr.
      destruct (Z.le_gt_cases 0 status).
      + pose proof (Z.rem_bound_pos status 100). lia.
      + pose proof (Z.rem_bound_pos_neg status 100). lia.
    - intros H. symmetry. apply Z.quot_unique with (r := status - 500); lia. }
  tauto.
Qed.

Lemma Do_world req w :
  requests (Do req w).1 = requests w ++ [req]
  ∧ logs (Do req w).1 = logs w
  ∧ now w ≤ now (Do req w).1
  ∧ server (Do req w).1 = tail (server w).
Proof. unfold Do. destruct (server w) as [|x rest]; simpl; split_and!; try done; lia. Qed.

Lemma send_world tenantID buf w :
  requests (send tenantID buf w).1.1 = requests w ++ [newRequest tenantID buf]
  ∧ logs (send tenantID buf w).1.1 = logs w
  ∧ now w ≤ now (send tenantID buf w).1.1
  ∧ server (send tenantID buf w).1.1 = tail (server w).
Proof.
  unfold send. pose proof (Do_world (newRequest tenantID buf) w) as H.
  destruct (Do _ w) as [w' [|code]]; simpl in *; done.
Qed.

(** What [send] returns for the next exchange of the server. *)
Lemma send_result tenantID buf w :
  ((send tenantID buf w).1.2, (send tenantID buf w).2) =
    match server w with
    | [] => (-1, Some ErrTransport)
    | x :: _ =>
        match outcome x with
        | ConnError => (-1, Some ErrTransport)
        | Response code =>
            (code, if code `quot` 100 =? 2 then None else Some (ErrStatus code))
        end
    end.
Proof.
  unfold send, Do. destruct (server w) as [|[[|code] d] rest]; simpl; try done.
  by destruct (code `quot` 100 =? 2).
Qed.

Lemma retry_loop_step fuel tenantID buf n bk w status err :
  Ongoing bk = true →
  retry_loop (S fuel) tenantID buf n bk w status err =
    if leaves_loop (send tenantID buf w).1.2 then send tenantID buf w
    else
      retry_loop fuel tenantID buf n (Wait bk)
        (log (send tenantID buf w).1.1
             (LogWillRetry (send tenantID buf w).1.2 n (send tenantID buf w).2))
        (send tenantID buf w).1.2 (send tenantID buf w).2.
Proof.
  intros Hon. simpl. rewrite Hon.
  by destruct (send tenantID buf w) as [[w1 status1] err1].
Qed.

Lemma retry_loop_stop fuel tenantID buf n bk w status err :
  Ongoing bk = false →
  retry_loop fuel tenantID buf n bk w status err = (w, status, err).
Proof. intros Hoff. destruct fuel; simpl; [done|]. by rewrite Hoff. Qed.

Lemma remaining_Ongoing bk : Ongoing bk = true ↔ (0 < remaining bk)%nat.
Proof. unfold Ongoing, remaining. rewrite Z.ltb_lt. lia. Qed.

Lemma remaining_Wait bk :
  Ongoing bk = true → remaining bk = S (remaining (Wait bk)).
Proof. unfold Ongoing, remaining. rewrite Z.ltb_lt. simpl. lia. Qed.

(** The loop ends on its own test: fuel beyond the retry budget changes
    nothing. *)
Lemma retry_loop_fuel fuel tenantID buf n bk w status err :
  (remaining bk ≤ fuel)%nat →
  retry_loop fuel tenantID buf n bk w status err =
    retry_loop (remaining bk) tenantID buf n bk w status err.
Proof.
  revert bk w status err.
  induction fuel as [|fuel IH]; intros bk w status err Hle.
  - by replace (remaining bk) with 0%nat by lia.
  - destruct (Ongoing bk) eqn:Hon.
    + rewrite (remaining_Wait bk Hon) in *.
      rewrite !retry_loop_step by done.
      destruct (leaves_loop _); [done|]. apply IH. lia.
    + by rewrite !retry_loop_stop.
Qed.

Lemma retry_loop_world fuel tenantID buf n bk w status err :
  let w' := (retry_loop fuel tenantID buf n bk w status err).1.1 in
  now w ≤ now w'
  ∧ (∃ k, (k ≤ fuel)%nat
          ∧ requests w' = requests w ++ replicate k (newRequest tenantID buf))
  ∧ (∃ more, logs w' = logs w ++ more).
Proof.
  revert bk w status err.
  induction fuel as [|fuel IH]; intros bk w status err; simpl.
  - split_and!; [lia|exists 0%nat|exists []]; by rewrite ?app_nil_r.
  - destruct (Ongoing bk); simpl.
    2:{ split_and!; [lia|exists 0%nat|exists []]; rewrite ?app_nil_r; [split; [lia|done]|done]. }
    destruct (send_world tenantID buf w) as (Hreq & Hlog & Hnow & _).
    destruct (send tenantID buf w) as [[w1 status1] err1]. simpl in *.
    destruct (leaves_loop status1); simpl.
    + split_and!; [done|exists 1%nat|exists []]; rewrite ?app_nil_r; [split; [lia|done]|done].
    + specialize (IH (Wait bk) (log w1 (LogWillRetry status1 n err1)) status1 err1).
      destruct IH as (IHnow & (k & Hk & IHreq) & (more & IHlog)). simpl in *.
      split_and!.
      * lia.
      * exists (S k). split; [lia|]. rewrite IHreq, Hreq, <-app_assoc. done.
      * exists (LogWillRetry status1 n err1 :: more).
        rewrite IHlog, Hlog, <-app_assoc. done.
Qed.

Lemma sendBatch_world tenantID b w :
  now w ≤ now (sendBatch tenantID b w)
  ∧ (∃ more, requests (sendBatch tenantID b w) = requests w ++ more)
  ∧ (∃ more, logs (sendBatch tenantID b w) = logs w ++ more).
Proof.
  unfold sendBatch. destruct (encodeJSON b) as [[buf n] [err|]].
  - simpl. split_and!; [lia|exists []|eauto]. by rewrite app_nil_r.
  - pose proof (retry_loop_world (Z.to_nat (MaxRetries (Backoff_Config c)))
                  tenantID buf n (backoff_New (Backoff_Config c)) w 0 None) as H.
    destruct (retry_loop _ _ _ _ _ _ _ _) as [[w' status] err]. simpl in H.
    destruct H as (Hnow & (k & _ & Hreq) & (more & Hlog)).
    destruct err as [err|]; simpl.
    + split_and!; [done|eauto|]. exists (more ++ [LogFinalError status n err]).
      by rewrite Hlog, <-app_assoc.
    + split_and!; eauto.
Qed.

Lemma sendBatch_first_attempt tenantID b buf n w :
  encodeJSON b = (buf, n, None) →
  0 < MaxRetries (Backoff_Config c) →
  sendBatch tenantID b w =
    let '(w', status, err) :=
      if leaves_loop (send tenantID buf w).1.2 then send tenantID buf w
      else
        retry_loop (Z.to_nat (MaxRetries (Backoff_Config c) - 1)) tenantID buf n
          (Wait (backoff_New (Backoff_Config c)))
          (log (send tenantID buf w).1.1
               (LogWillRetry (send tenantID buf w).1.2 n (send tenantID buf w).2))
          (send tenantID buf w).1.2 (send tenantID buf w).2 in
    match err with
    | Some err => log w' (LogFinalError status n err)
    | None => w'
    end.
Proof.
  intros Henc Hmax. unfold sendBatch. rewrite Henc.
  replace (Z.to_nat (MaxRetries (Backoff_Config c)))
    with (S (Z.to_nat (MaxRetries (Backoff_Config c) - 1))) by lia.
  rewrite retry_loop_step; [done|].
  unfold Ongoing, backoff_New. simpl. by apply Z.ltb_lt.
Qed.

(** C3 (amended): a send attempt is retried exactly when the status that
    [send] returns is at most 0 ([send] reports a connection-level failure
    as -1), is 429, or is in the 5xx class.  Any other status ends the
    loop after that attempt: a 400 gives exactly one request and the
    final-error log, a 2xx exactly one request and no error.  A retried
    attempt logs the warning, and is followed by a second request when the
    backoff allows one. *)
Theorem sendBatch_retry_rule tenantID b buf n w :
  encodeJSON b = (buf, n, None) →
  0 < MaxRetries (Backoff_Config c) →
  let status := (send tenantID buf w).1.2 in
  let err := (send tenantID buf w).2 in
  let w' := sendBatch tenantID b w in
  (leaves_loop status = false ↔ status ≤ 0 ∨ status = 429 ∨ 500 ≤ status ≤ 599)
  ∧ (leaves_loop status = true →
       requests w' = requests w ++ [newRequest tenantID buf]
       ∧ logs w' = logs w ++ match err with
                             | Some e => [LogFinalError status n e]
                             | None => []
                             end)
  ∧ (leaves_loop status = false →
       (∃ more, logs w' = logs w ++ LogWillRetry status n err :: more)
       ∧ (1 < MaxRetries (Backoff_Config c) →
          ∃ more, requests w' =
                    requests w ++ newRequest tenantID buf :: newRequest tenantID buf :: more))
  ∧ (status = 400 →
       requests w' = requests w ++ [newRequest tenantID buf]
       ∧ logs w' = logs w ++ [LogFinalError 400 n (ErrStatus 400)])
  ∧ (200 ≤ status ≤ 299 →
       requests w' = requests w ++ [newRequest tenantID buf]
       ∧ logs w' = logs w).
Proof.
  intros Henc Hmax status err w'.
  assert (leaves_loop status = true →
          requests w' = requests w ++ [newRequest tenantID buf]
          ∧ logs w' = logs w ++ match err with
                                | Some e => [LogFinalError status n e]
                                | None => []
                                end) as Hleave.
  { intros Hl. subst w'. rewrite (sendBatch_first_attempt _ _ _ _ _ Henc Hmax).
    fold status. rewrite Hl.
    destruct (send_world tenantID buf w) as (Hreq & Hlog & _).
    subst status err.
    destruct (send tenantID buf w) as [[w1 status1] [e|]]; simpl in *.
    - by rewrite Hreq, Hlog.
    - by rewrite Hreq, Hlog, app_nil_r. }
  pose proof (send_result tenantID buf w) as Hres. fold status err in Hres.
  split_and!.
  - apply leaves_loop_false.
  - done.
  - intros Hl. subst w'. rewrite (sendBatch_first_attempt _ _ _ _ _ Henc Hmax).
    fold status err. rewrite Hl.
    destruct (send_world tenantID buf w) as (Hreq & Hlog & _).
    set (w1 := log (send tenantID buf w).1.1 (LogWillRetry status n err)).
    assert (requests w1 = requests w ++ [newRequest tenantID buf]) as Hreq1 by done.
    assert (logs w1 = logs w ++ [LogWillRetry status n err]) as Hlog1
      by (simpl; by rewrite Hlog).
    clearbody w1. split.
    + pose proof (retry_loop_world (Z.to_nat (MaxRetries (Backoff_Config c) - 1))
                    tenantID buf n (Wait (backoff_New (Backoff_Config c)))
                    w1 status err) as Hw.
      destruct (retry_loop _ _ _ _ _ _ _ _) as [[w2 status2] err2]. simpl in Hw.
      destruct Hw as (_ & _ & (more & Hlog2)).
      destruct err2 as [e|]; simpl.
      * exists (more ++ [LogFinalError status2 n e]).
        rewrite Hlog2, Hlog1, <-!app_assoc. done.
      * exists more. rewrite Hlog2, Hlog1, <-!app_assoc. done.
    + intros Hmax2.
      replace (Z.to_nat (MaxRetries (Backoff_Config c) - 1))
        with (S (Z.to_nat (MaxRetries (Backoff_Config c) - 2))) by lia.
      rewrite retry_loop_step
        by (unfold Ongoing, Wait, backoff_New; simpl; apply Z.ltb_lt; lia).
      destruct (send_world tenantID buf w1) as (Hreq2 & _).
      destruct (leaves_loop (send tenantID buf w1).1.2).
      * destruct (send tenantID buf w1) as [[w2 status2] err2]. simpl in *.
        exists []. destruct err2; simpl; rewrite Hreq2, Hreq1, <-app_assoc; done.
      * match goal with
        | |- context [retry_loop ?f ?t ?bf ?m ?bk ?ww ?st ?er] =>
            pose proof (retry_loop_world f t bf m bk ww st er) as Hw;
            destruct (retry_loop f t bf m bk ww st er) as [[w3 status3] err3]
        end.
        simpl in Hw. destruct Hw as (_ & (k & _ & Hreq3) & _).
        exists (replicate k (newRequest tenantID buf)).
        destruct err3; simpl; rewrite Hreq3, Hreq2, Hreq1, <-!app_assoc; done.
  - intros H400.
    assert (leaves_loop status = true) as Hl by (by rewrite H400).
    destruct (Hleave Hl) as [Hreq Hlog]. split; [done|].
    rewrite Hlog, H400.
    assert (err = Some (ErrStatus 400)) as ->; [|done].
    destruct (server w) as [|[[|code] d] rest]; simpl in Hres;
      injection Hres as Hs He; try (rewrite H400 in Hs; discriminate).
    rewrite He. rewrite H400 in Hs. by subst code.
  - intros H2xx.
    assert (status `quot` 100 = 2) as Hq
      by (symmetry; apply Z.quot_unique with (r := status - 200); lia).
    assert (leaves_loop status = true) as Hl.
    { destruct (leaves_loop status) eqn:E; [done|].
      apply leaves_loop_false in E. lia. }
    destruct (Hleave Hl) as [Hreq Hlog]. split; [done|].
    rewrite Hlog.
    assert (err = None) as ->; [|by rewrite app_nil_r].
    destruct (server w) as [|[[|code] d] rest]; simpl in Hres;
      injection Hres as Hs He; try lia.
    rewrite He, <-Hs, Hq. done.
Qed.

(** ** Facts about the dispatcher *)

Lemma flush_batches why t b st : batches (flush why t b st) = batches st.
Proof. done. Qed.

Lemma flush_flushed why t b st :
  flushed (flush why t b st) = flushed st ++ [mkFlush t b why (now (world st))].
Proof. done. Qed.

Lemma flush_now why t b st : now (world st) ≤ now (world (flush why t b st)).
Proof. apply sendBatch_world. Qed.

Lemma age_mono (n1 n2 : Z) b : n1 ≤ n2 → age n1 b ≤ age n2 b.
Proof. unfold age. lia. Qed.

Lemma checkAge_young st t b :
  age (now (world st)) b < BatchWait c → checkAge st (t, b) = st.
Proof. intros H. unfold checkAge. by rewrite (proj2 (Z.ltb_lt _ _) H). Qed.

Lemma checkAge_old st t b :
  BatchWait c ≤ age (now (world st)) b →
  checkAge st (t, b) =
    mkState (delete t (batches st)) (sendBatch t b (world st))
            (flushed st ++ [mkFlush t b Aged (now (world st))]).
Proof. intros H. unfold checkAge. by rewrite (proj2 (Z.ltb_ge _ _) H). Qed.

(** The loop of the age check over the batches [l] still to examine. *)
Lemma checkAge_loop (l : list (string * batch)) (st : State) :
  let st' := fold_left checkAge l st in
  now (world st) ≤ now (world st')
  ∧ ∃ news, flushed st' = flushed st ++ news
    ∧ Forall (λ fl, fl_cause fl = Aged
                    ∧ (fl_tenant fl, fl_batch fl) ∈ l
                    ∧ BatchWait c ≤ age (fl_at fl) (fl_batch fl)
                    ∧ now (world st) ≤ fl_at fl) news
    ∧ (∀ t b, (t, b) ∈ l → BatchWait c ≤ age (now (world st)) b →
              ∃ at_, mkFlush t b Aged at_ ∈ news)
    ∧ (∀ t, batches st' !! t =
              if bool_decide (t ∈ fl_tenant <$> news) then None else batches st !! t).
Proof.
  revert st. induction l as [|[t b] l IH]; intros st; cbv zeta; cbn [fold_left].
  - split; [lia|]. exists []. rewrite app_nil_r. split_and!; try done.
    intros t b Hin. by apply not_elem_of_nil in Hin.
  - destruct (Z.lt_ge_cases (age (now (world st)) b) (BatchWait c)) as [Hy|Ho].
    + rewrite (checkAge_young st t b Hy).
      destruct (IH st) as (Hnow & news & Hfl & Hall & Hold & Hlk).
      split; [done|]. exists news. split_and!; try done.
      * eapply Forall_impl; [exact Hall|]. intros fl (? & ? & ? & ?).
        split_and!; try done. by right.
      * intros t' b' Hin Hage. apply elem_of_cons in Hin as [Heq|Hin].
        -- simplify_eq. lia.
        -- by apply (Hold t' b').
    + rewrite (checkAge_old st t b Ho).
      set (st1 := mkState _ _ _).
      assert (now (world st) ≤ now (world st1)) as Hnow1 by apply sendBatch_world.
      destruct (IH st1) as (Hnow & news & Hfl & Hall & Hold & Hlk).
      split; [lia|]. exists (mkFlush t b Aged (now (world st)) :: news).
      split_and!.
      * rewrite Hfl. simpl. by rewrite <-app_assoc.
      * constructor.
        -- simpl. split_and!; [done|by left|done|lia].
        -- eapply Forall_impl; [exact Hall|]. intros fl (? & ? & ? & ?).
           split_and!; [done|by right|done|lia].
      * intros t' b' Hin Hage. apply elem_of_cons in Hin as [Heq|Hin].
        -- simplify_eq. exists (now (world st)). by left.
        -- destruct (Hold t' b' Hin) as [at_ Hat].
           { pose proof (age_mono _ _ b' Hnow1). lia. }
           exists at_. by right.
      * intros t'. rewrite Hlk. simpl.
        destruct (decide (t' = t)) as [->|Hne].
        -- rewrite lookup_delete_eq.
           rewrite (bool_decide_eq_true_2 (t ∈ t :: _)) by left.
           by destruct (bool_decide _).
        -- rewrite lookup_delete_ne by done.
           destruct (decide (t' ∈ fl_tenant <$> news)) as [Hin|Hnin].
           ++ rewrite !bool_decide_eq_true_2; [done|by right|done].
           ++ rewrite !bool_decide_eq_false_2; [done| |done].
              intros [?|?]%elem_of_cons; done.
Qed.

Lemma drain_loop (l : list (string * batch)) (st : State) :
  let st' := fold_left (λ st (kv : string * batch), flush Drain kv.1 kv.2 st) l st in
  batches st' = batches st
  ∧ now (world st) ≤ now (world st')
  ∧ ∃ drained, flushed st' = flushed st ++ drained
      ∧ (λ fl, (fl_tenant fl, fl_batch fl)) <$> drained = l
      ∧ Forall (λ fl, fl_cause fl = Drain) drained.
Proof.
  revert st. induction l as [|[t b] l IH]; intros st; cbv zeta; cbn [fold_left fst snd].
  - split_and!; [done|lia|]. exists []. by rewrite app_nil_r.
  - destruct (IH (flush Drain t b st)) as (Hb & Hnow & drained & Hfl & Hl & Hall).
    pose proof (flush_now Drain t b st).
    split_and!; [done|lia|].
    exists (mkFlush t b Drain (now (world st)) :: drained). split_and!.
    + simpl in *. rewrite Hfl, <-app_assoc. done.
    + rewrite fmap_cons. simpl. by rewrite Hl.
    + by constructor.
Qed.

Lemma onEntry_flushed e st :
  ∃ news, flushed (onEntry e st) = flushed st ++ news
          ∧ Forall (λ fl, fl_cause fl = Overflow) news.
Proof.
  unfold onEntry. destruct (batches st !! tenantID e) as [b|]; simpl.
  - destruct (BatchSize c <? sizeBytesAfter b e); simpl.
    + eexists. split; [done|]. by constructor.
    + exists []. by rewrite app_nil_r.
  - exists []. by rewrite app_nil_r.
Qed.

Lemma onTick_flushed st :
  ∃ news, flushed (onTick st) = flushed st ++ news ∧ Forall old_enough news.
Proof.
  destruct (checkAge_loop (map_to_list (batches st)) st)
    as (_ & news & Hfl & Hall & _).
  exists news. split; [done|].
  eapply Forall_impl; [exact Hall|]. by intros fl (? & ? & ? & ?) _.
Qed.

Lemma handle_old_enough ev st :
  Forall old_enough (flushed st) → Forall old_enough (flushed (handle ev st)).
Proof.
  intros Hst. destruct ev as [e|]; simpl.
  - destruct (onEntry_flushed e st) as (news & -> & Hall).
    apply Forall_app. split; [done|].
    eapply Forall_impl; [exact Hall|]. intros fl Hc Ha. congruence.
  - destruct (onTick_flushed st) as (news & -> & Hall).
    apply Forall_app. by split.
Qed.

Lemma select_loop_old_enough evs st :
  Forall old_enough (flushed st) → Forall old_enough (flushed (select_loop st evs)).
Proof.
  revert st. induction evs as [|[d ev] evs IH]; intros st Hst; [done|].
  apply IH. by apply handle_old_enough.
Qed.

Lemma run_old_enough w evs d : Forall old_enough (flushed (run w evs d)).
Proof.
  unfold run, drain.
  set (st := idle d (select_loop (mkState ∅ w []) evs)).
  destruct (drain_loop (map_to_list (batches st)) st)
    as (_ & _ & drained & -> & _ & Hall).
  apply Forall_app. split.
  - apply (select_loop_old_enough evs (mkState ∅ w [])). constructor.
  - eapply Forall_impl; [exact Hall|]. intros fl Hc Ha. congruence.
Qed.

(** C1: when an entry arrives for a tenant with a pending batch and
    [sizeBytesAfter] exceeds [BatchSize], [sendBatch] is called at once on
    the pending batch as it is, without the entry, and the tenant's batch
    becomes a new batch that holds exactly that entry, whole; the batches of
    the other tenants stay as they are. *)
Theorem overflow_starts_new_batch (st : State) (e : entry) (b : batch) :
  batches st !! tenantID e = Some b →
  BatchSize c < sizeBytesAfter b e →
  let st' := onEntry e st in
  flushed st' = flushed st ++ [mkFlush (tenantID e) b Overflow (now (world st))]
  ∧ world st' = sendBatch (tenantID e) b (world st)
  ∧ batches st' = <[tenantID e := newBatch (now (world st')) [e]]> (batches st)
  ∧ streams (newBatch (now (world st')) [e]) = {[ key_of e := mkStream (labels e) [value e] ]}
  ∧ batch_pairs (newBatch (now (world st')) [e]) = [entry_pair e]
  ∧ sizeBytes (newBatch (now (world st')) [e]) = len_string (line_of e)
  ∧ (∀ t, t ≠ tenantID e → batches st' !! t = batches st !! t).
Proof.
  intros Hb Hover st'. subst st'. unfold onEntry. rewrite Hb.
  rewrite (proj2 (Z.ltb_lt _ _) Hover). simpl.
  assert (∀ n, streams (newBatch n [e]) = {[ key_of e := mkStream (labels e) [value e] ]})
    as Hstreams.
  { intros n. unfold newBatch. cbn [fold_left]. rewrite add_streams. simpl.
    by rewrite lookup_empty. }
  split_and!; try done.
  - unfold batch_pairs. rewrite Hstreams, map_to_list_singleton. done.
  - intros t Hne. by rewrite lookup_insert_ne.
Qed.

(** C10: [sizeBytesAfter] is [sizeBytes] plus 2 whatever the line of the
    entry is, the length of the two-element value array; so the overflow
    test of the dispatcher compares the size of the pending batch plus 2
    with [BatchSize], and two entries for the same tenant get the same
    verdict. *)
Theorem sizeBytesAfter_plus_two (st : State) (e : entry) (b : batch) :
  batches st !! tenantID e = Some b →
  sizeBytesAfter b e = sizeBytes b + 2
  ∧ (∀ e', sizeBytesAfter b e' = sizeBytesAfter b e)
  ∧ onEntry e st =
      if BatchSize c <? sizeBytes b + 2 then
        mkState (<[tenantID e := newBatch (now (world (flush Overflow (tenantID e) b st))) [e]]>
                   (batches st))
                (sendBatch (tenantID e) b (world st))
                (flushed st ++ [mkFlush (tenantID e) b Overflow (now (world st))])
      else
        mkState (<[tenantID e := add b e]> (batches st)) (world st) (flushed st).
Proof.
  intros Hb.
  assert (∀ e0, sizeBytesAfter b e0 = sizeBytes b + 2) as Hsz.
  { intros e0. unfold sizeBytesAfter, sizeBytes. by rewrite len_value. }
  split_and!.
  - apply Hsz.
  - intros e'. by rewrite !Hsz.
  - unfold onEntry. rewrite Hb, Hsz. done.
Qed.

(** C5 (amended): the age check runs with period
    max(10ms, BatchWait / 10).  A tick calls [sendBatch] on, and removes from
    the pending map, exactly the batches whose age is at least [BatchWait]
    when the loop examines them: every batch that already has that age when
    the tick is handled is sent and removed (at once when it is the only
    pending batch), every batch the tick sends has that age at its call, and
    the others stay.  So in no run of the dispatcher does an age check send a
    batch younger than [BatchWait]. *)
Theorem age_check (st : State) (w : World) (evs : list (N * Event)) (d : N) :
  maxWaitCheckFrequency = Z.max (10 * Millisecond) (BatchWait c `quot` 10)
  ∧ (∃ news, flushed (onTick st) = flushed st ++ news
       ∧ (∀ fl, fl ∈ news →
            fl_cause fl = Aged
            ∧ batches st !! fl_tenant fl = Some (fl_batch fl)
            ∧ BatchWait c ≤ age (fl_at fl) (fl_batch fl)
            ∧ now (world st) ≤ fl_at fl)
       ∧ (∀ t b, batches st !! t = Some b → BatchWait c ≤ age (now (world st)) b →
            ∃ at_, mkFlush t b Aged at_ ∈ news)
       ∧ (∀ t, batches (onTick st) !! t =
                 if bool_decide (t ∈ fl_tenant <$> news) then None else batches st !! t))
  ∧ (∀ t b, batches st = {[ t := b ]} → BatchWait c ≤ age (now (world st)) b →
       flushed (onTick st) = flushed st ++ [mkFlush t b Aged (now (world st))]
       ∧ batches (onTick st) = ∅)
  ∧ (∀ fl, fl ∈ flushed (run w evs d) → fl_cause fl = Aged →
       BatchWait c ≤ age (fl_at fl) (fl_batch fl)).
Proof.
  split_and!.
  - unfold maxWaitCheckFrequency.
    destruct (Z.ltb_spec (BatchWait c `quot` 10) (10 * Millisecond)); lia.
  - destruct (checkAge_loop (map_to_list (batches st)) st)
      as (_ & news & Hfl & Hall & Hold & Hlk).
    exists news. split_and!; [done| | |done].
    + intros fl Hin. rewrite Forall_forall in Hall.
      destruct (Hall fl Hin) as (? & Hm & ? & ?).
      by apply elem_of_map_to_list in Hm.
    + intros t b Hb. apply Hold. by apply elem_of_map_to_list.
  - intros t b Hm Hage. unfold onTick. rewrite Hm, map_to_list_singleton.
    cbn [fold_left]. rewrite checkAge_old by done. simpl.
    by rewrite Hm, delete_singleton_eq.
  - intros fl Hin. pose proof (run_old_enough w evs d) as Hall.
    rewrite Forall_forall in Hall. by apply Hall.
Qed.

(** ** Every received entry is sent *)

Lemma map_items_insert (m : gmap string batch) t b :
  map_items (<[t := b]> m) ≡ₚ flush_items (mkFlush t b Drain 0) ++ map_items (delete t m).
Proof.
  unfold map_items. rewrite <-insert_delete_eq.
  rewrite map_to_list_insert by apply lookup_delete_eq. by rewrite bind_cons.
Qed.

Lemma map_items_lookup (m : gmap string batch) t b :
  m !! t = Some b →
  map_items m ≡ₚ flush_items (mkFlush t b Drain 0) ++ map_items (delete t m).
Proof.
  intros Hm. unfold map_items.
  rewrite <-(map_to_list_delete m t b) by done. by rewrite bind_cons.
Qed.

Lemma flushed_items_snoc fls fl :
  (fls ++ [fl]) ≫= flush_items = (fls ≫= flush_items) ++ flush_items fl.
Proof. by rewrite bind_app, bind_singleton. Qed.

Lemma onEntry_items e st :
  flushed_items (onEntry e st) ++ pending_items (onEntry e st)
  ≡ₚ (flushed_items st ++ pending_items st) ++ [entry_item e].
Proof.
  unfold flushed_items, pending_items, onEntry.
  destruct (batches st !! tenantID e) as [b|] eqn:Hb.
  - rewrite (map_items_lookup _ _ _ Hb).
    destruct (BatchSize c <? sizeBytesAfter b e); unfold flush; cbn [batches flushed world].
    + rewrite flushed_items_snoc, map_items_insert. unfold flush_items.
      cbn [fl_tenant fl_batch].
      rewrite batch_pairs_newBatch. unfold entry_item.
      rewrite <-!app_assoc. do 2 apply Permutation_app_head.
      simpl. apply Permutation_cons_append.
    + rewrite map_items_insert. unfold flush_items. cbn [fl_tenant fl_batch].
      rewrite batch_pairs_add, fmap_app. unfold entry_item.
      rewrite <-!app_assoc. do 2 apply Permutation_app_head.
      simpl. apply Permutation_cons_append.
  - cbn [batches flushed world]. rewrite map_items_insert, delete_id by done.
    unfold flush_items. cbn [fl_tenant fl_batch]. rewrite batch_pairs_newBatch.
    unfold entry_item. rewrite <-app_assoc. apply Permutation_app_head.
    simpl. apply Permutation_cons_append.
Qed.

Lemma checkAge_items (l : list (string * batch)) (st : State) :
  NoDup l.*1 →
  (∀ t b, (t, b) ∈ l → batches st !! t = Some b) →
  let st' := fold_left checkAge l st in
  flushed_items st' ++ pending_items st' ≡ₚ flushed_items st ++ pending_items st.
Proof.
  revert st. induction l as [|[t b] l IH]; intros st Hnd Hl; cbv zeta; cbn [fold_left].
  - done.
  - rewrite fmap_cons in Hnd. apply NoDup_cons in Hnd as [Hnin Hnd].
    destruct (Z.lt_ge_cases (age (now (world st)) b) (BatchWait c)) as [Hy|Ho].
    + rewrite (checkAge_young st t b Hy). apply IH; [done|].
      intros t' b' Hin. apply Hl. by right.
    + rewrite (checkAge_old st t b Ho). rewrite IH; [|done|].
      * unfold flushed_items, pending_items. cbn [batches flushed world].
        rewrite flushed_items_snoc.
        rewrite (map_items_lookup (batches st) t b) by (apply Hl; left).
        by rewrite <-app_assoc.
      * intros t' b' Hin. simpl. rewrite lookup_delete_ne.
        -- apply Hl. by right.
        -- intros ->. apply Hnin. apply list_elem_of_fmap. by exists (t', b').
Qed.

Lemma handle_items ev st :
  flushed_items (handle ev st) ++ pending_items (handle ev st)
  ≡ₚ (flushed_items st ++ pending_items st)
     ++ (entry_item <$> entries_of [(0%N, ev)]).
Proof.
  destruct ev as [e|]; simpl.
  - apply onEntry_items.
  - rewrite app_nil_r. apply checkAge_items.
    + apply NoDup_fst_map_to_list.
    + intros t b. apply elem_of_map_to_list.
Qed.

Lemma select_loop_items evs st :
  flushed_items (select_loop st evs) ++ pending_items (select_loop st evs)
  ≡ₚ (flushed_items st ++ pending_items st) ++ (entry_item <$> entries_of evs).
Proof.
  revert st. induction evs as [|[d ev] evs IH]; intros st.
  - simpl. by rewrite app_nil_r.
  - unfold select_loop in *. cbn [fold_left fst snd]. rewrite IH.
    rewrite handle_items. unfold entries_of. simpl.
    destruct ev as [e|]; simpl.
    + by rewrite <-!app_assoc.
    + by rewrite app_nil_r.
Qed.

Lemma drain_items st : flushed_items (drain st) = flushed_items st ++ pending_items st.
Proof.
  unfold drain.
  destruct (drain_loop (map_to_list (batches st)) st)
    as (_ & _ & drained & Hfl & Hl & _).
  unfold flushed_items, pending_items, map_items.
  rewrite Hfl, bind_app, <-Hl, list_fmap_bind. done.
Qed.

Lemma run_items w evs d : flushed_items (run w evs d) ≡ₚ entry_item <$> entries_of evs.
Proof.
  unfold run. rewrite drain_items.
  change (flushed_items (idle d ?s)) with (flushed_items s).
  change (pending_items (idle d ?s)) with (pending_items s).
  rewrite select_loop_items. unfold flushed_items, pending_items, map_items. simpl.
  by rewrite map_to_list_empty.
Qed.

(** ** Every recorded call reaches the wire *)

Lemma sendBatch_attempts tenantID b buf n w :
  encodeJSON b = (buf, n, None) →
  0 < MaxRetries (Backoff_Config c) →
  ∃ more, requests (sendBatch tenantID b w) = requests w ++ newRequest tenantID buf :: more.
Proof.
  intros Henc Hmax. rewrite (sendBatch_first_attempt _ _ _ _ _ Henc Hmax).
  destruct (send_world tenantID buf w) as (Hreq & _).
  destruct (leaves_loop (send tenantID buf w).1.2).
  - destruct (send tenantID buf w) as [[w1 status1] err1]. simpl in *.
    exists []. by destruct err1; simpl; rewrite Hreq.
  - match goal with
    | |- context [retry_loop ?f ?t ?bf ?m ?bk ?ww ?st ?er] =>
        pose proof (retry_loop_world f t bf m bk ww st er) as Hw;
        destruct (retry_loop f t bf m bk ww st er) as [[w3 status3] err3]
    end.
    simpl in Hw. destruct Hw as (_ & (k & _ & Hreq3) & _).
    exists (replicate k (newRequest tenantID buf)).
    destruct err3; simpl; rewrite Hreq3, Hreq, <-!app_assoc; done.
Qed.

Lemma flush_all_attempted why t b st :
  0 < MaxRetries (Backoff_Config c) →
  all_attempted st → all_attempted (flush why t b st).
Proof.
  intros Hmax Hst. unfold all_attempted, flush. cbn [world flushed].
  apply Forall_app. split.
  - destruct (sendBatch_world t b (world st)) as (_ & (more & Hreq) & _).
    eapply Forall_impl; [exact Hst|]. intros fl Hfl buf n Henc.
    rewrite Hreq. apply elem_of_app. left. by eapply Hfl.
  - constructor; [|constructor]. intros buf n Henc. simpl in *.
    destruct (sendBatch_attempts t b buf n (world st) Henc Hmax) as [more ->].
    apply elem_of_app. right. left.
Qed.

Lemma handle_all_attempted ev st :
  0 < MaxRetries (Backoff_Config c) →
  all_attempted st → all_attempted (handle ev st).
Proof.
  intros Hmax Hst. destruct ev as [e|]; simpl.
  - unfold onEntry. destruct (batches st !! tenantID e) as [b|]; [|done].
    destruct (BatchSize c <? sizeBytesAfter b e); [|done].
    by apply (flush_all_attempted Overflow (tenantID e) b st Hmax).
  - unfold onTick. generalize (map_to_list (batches st)). intros l.
    revert st Hst. induction l as [|[t b] l IH]; intros st Hst; [done|].
    cbn [fold_left]. apply IH. unfold checkAge.
    destruct (age (now (world st)) b <? BatchWait c); [done|].
    by apply (flush_all_attempted Aged t b st Hmax).
Qed.

Lemma select_loop_all_attempted evs st :
  0 < MaxRetries (Backoff_Config c) →
  all_attempted st → all_attempted (select_loop st evs).
Proof.
  intros Hmax. revert st. induction evs as [|[d ev] evs IH]; intros st Hst; [done|].
  apply IH. by apply handle_all_attempted.
Qed.

Lemma drain_all_attempted st :
  0 < MaxRetries (Backoff_Config c) →
  all_attempted st → all_attempted (drain st).
Proof.
  intros Hmax. unfold drain. generalize (map_to_list (batches st)). intros l.
  revert st. induction l as [|[t b] l IH]; intros st Hst; [done|].
  cbn [fold_left fst snd]. apply IH. by apply flush_all_attempted.
Qed.

Lemma run_all_attempted w evs d :
  0 < MaxRetries (Backoff_Config c) → all_attempted (run w evs d).
Proof.
  intros Hmax. unfold run. apply drain_all_attempted; [done|].
  apply (select_loop_all_attempted evs (mkState ∅ w []) Hmax). constructor.
Qed.

(** C7: on the quit signal the loop ends and the deferred function calls
    [sendBatch] on every batch of the pending map, each once; so the batches
    handed to [sendBatch] in a run carry exactly the entries the loop
    received, each entry once, under its tenant; and when the backoff allows
    an attempt, every such batch that encodes puts a request with its
    payload on the wire.  [Stop] on a running client returns after that
    drain, with the wait group at zero, and a further [Stop] returns the
    same client with no panic. *)
Theorem shutdown_drains (w : World) (evs : list (N * Event)) (d : N) :
  let st := idle d (select_loop (mkState ∅ w []) evs) in
  let st' := run w evs d in
  (∃ drained, flushed st' = flushed st ++ drained
     ∧ (λ fl, (fl_tenant fl, fl_batch fl)) <$> drained = map_to_list (batches st)
     ∧ Forall (λ fl, fl_cause fl = Drain) drained)
  ∧ flushed_items st' ≡ₚ entry_item <$> entries_of evs
  ∧ (∀ e, e ∈ entries_of evs →
       ∃ fl, fl ∈ flushed st' ∧ fl_tenant fl = tenantID e
             ∧ entry_pair e ∈ batch_pairs (fl_batch fl))
  ∧ (0 < MaxRetries (Backoff_Config c) →
     ∀ fl buf n, fl ∈ flushed st' → encodeJSON (fl_batch fl) = (buf, n, None) →
       newRequest (fl_tenant fl) buf ∈ requests (world st'))
  ∧ (∀ evs1 evs2 evs3 d3,
       evs = evs1 ++ evs2 →
       let cl := mkClient false false 1 (select_loop (mkState ∅ w []) evs1) in
       let cl' := mkClient true true 0 st' in
       Stop evs2 d cl = Some cl'
       ∧ Stop evs3 d3 cl' = Some cl').
Proof.
  intros st st'. subst st st'. split_and!.
  - unfold run, drain. set (st := idle d _).
    destruct (drain_loop (map_to_list (batches st)) st)
      as (_ & _ & drained & Hfl & Hl & Hall).
    by exists drained.
  - apply run_items.
  - intros e He.
    assert (entry_item e ∈ flushed_items (run w evs d)) as Hin.
    { rewrite (run_items w evs d). apply list_elem_of_fmap. by exists e. }
    unfold flushed_items in Hin. apply list_elem_of_bind in Hin as (fl & Hin & Hfl).
    unfold flush_items in Hin. apply list_elem_of_fmap in Hin as (p & Hp & Hin).
    unfold entry_item in Hp. simplify_eq. by exists fl.
  - intros Hmax fl buf n Hfl Henc.
    pose proof (run_all_attempted w evs d Hmax) as Hall.
    unfold all_attempted in Hall. rewrite Forall_forall in Hall.
    by eapply Hall.
  - intros evs1 evs2 evs3 d3 -> cl cl'. split; [|done].
    unfold Stop, once_Do, close_quit, wg_Wait. simpl.
    do 2 f_equal. unfold run, select_loop. by rewrite fold_left_app.
Qed.

(** ** Facts about Handle *)

Lemma alloc_spec (h : store) (m : LabelSet) :
((alloc h m).2 ∉ dom h)
  ∧ deref (alloc h m).1 (alloc h m).2 = m
  ∧ (∀ l, l ∈ dom h → (alloc h m).1 !! l = h !! l)
  ∧ dom h ⊆ dom (alloc h m).1.
Proof.
  unfold alloc, deref. simpl. pose proof (is_fresh (dom h)) as Hfresh.
  split_and!.
  - done.
  - by rewrite lookup_insert_eq.
  - intros l Hl. rewrite lookup_insert_ne; [done|].
    intros Heq. apply Hfresh. by rewrite Heq.
  - rewrite dom_insert. apply union_subseteq_r.
Qed.

Lemma delete_key_spec (h : store) (l : ref) (key : string) :
  deref (delete_key h l key) l = delete key (deref h l)
  ∧ (∀ l', l' ≠ l → delete_key h l key !! l' = h !! l').
Proof.
  unfold delete_key, deref. split.
  - by rewrite lookup_insert_eq.
  - intros l' Hne. by rewrite lookup_insert_ne.
Qed.

(** [Handle] step by step: the entry it sends, and what it leaves in the
    store. *)
Lemma Handle_spec (h : store) (ls : ref) (t : Z) (s : string) :
  let h' := (Handle h ls t s).1.1 in
  let ls' := (Handle h ls t s).1.2 in
  let e := (Handle h ls t s).2 in
  e = mkEntry (getTenantID (merged_labels h ls))
              (delete ReservedLabelTenantID (merged_labels h ls))
              [# pretty t; s]
  ∧ deref h' ls' = labels e
  ∧ (∀ l, l ∈ dom h → h' !! l = h !! l)
  ∧ (is_Some (merged_labels h ls !! ReservedLabelTenantID) → ls' ∉ dom h).
Proof.
  unfold Handle, merged_labels.
  set (ext := deref h (ExternalLabels c)).
  assert (∃ h1 ls1 merged,
            (if 0 <? Z.of_nat (size ext) then Merge h (ExternalLabels c) ls else (h, ls))
              = (h1, ls1)
            ∧ (if 0 <? Z.of_nat (size ext) then deref h ls ∪ ext else deref h ls) = merged
            ∧ deref h1 ls1 = merged
            ∧ (∀ l, l ∈ dom h → h1 !! l = h !! l)
            ∧ dom h ⊆ dom h1) as (h1 & ls1 & merged & -> & -> & Hd1 & Hfr1 & Hdom1).
  { destruct (0 <? Z.of_nat (size ext)).
    - unfold Merge. fold ext.
      destruct (alloc_spec h (deref h ls ∪ ext)) as (_ & Hd & Hfr & Hdom).
      destruct (alloc h (deref h ls ∪ ext)) as [h1 ls1]. by exists h1, ls1, (deref h ls ∪ ext).
    - by exists h, ls, (deref h ls). }
  rewrite Hd1.
  destruct (merged !! ReservedLabelTenantID) as [v|] eqn:Hres.
  - unfold Clone. rewrite Hd1.
    destruct (alloc_spec h1 merged) as (Hnin & Hd & Hfr & Hdom).
    destruct (alloc h1 merged) as [h2 ls2]. simpl in *.
    destruct (delete_key_spec h2 ls2 ReservedLabelTenantID) as (Hdk & Hfrk).
    rewrite Hdk, Hd. split_and!; try done.
    + intros l Hl. rewrite Hfrk, Hfr; [by apply Hfr1|by apply Hdom1|].
      intros ->. apply Hnin. by apply Hdom1.
    + intros _ Hin. apply Hnin. by apply Hdom1.
  - simpl. rewrite Hd1, (delete_id _ _ Hres). split_and!; try done.
Qed.

Lemma newRequest_tenant_header tenantID buf :
  req_header (newRequest tenantID buf) !! "X-Scope-OrgID" =
    if decide (tenantID = "") then None else Some tenantID.
Proof.
  unfold newRequest. simpl. destruct (decide (tenantID = "")) as [->|Hne].
  - rewrite decide_False by (by intros ?). by rewrite !lookup_insert_ne, lookup_empty.
  - rewrite decide_True by done. by rewrite lookup_insert_eq.
Qed.

Lemma stream_labels_from_entries (P : LabelSet → Prop) now es k st :
  (∀ e, e ∈ es → P (labels e)) →
  streams (newBatch now es) !! k = Some st → P (Labels st).
Proof.
  intros Hes. rewrite newBatch_lookup.
  destruct (head (with_key k es)) as [e0|] eqn:Hhd; [|done].
  intros [= <-]. simpl. apply Hes.
  apply head_Some_elem_of in Hhd. by apply list_elem_of_filter in Hhd as [_ ?].
Qed.

(** C6 (amended): the tenant of the entry that [Handle] sends is the value
    of the reserved label [__tenant_id__] when the merged label set has it,
    else the configured tenant ID, which is the empty string when none is
    configured; the labels of the entry are the merged labels without the
    reserved label, so no stream of a batch built from such entries carries
    it; and the request that [send] issues for that tenant carries
    [X-Scope-OrgID] with the tenant when the tenant is not empty, and no
    such header when it is empty. *)
Theorem Handle_tenant (h : store) (ls : ref) (t : Z) (s : string) :
  let e := (Handle h ls t s).2 in
  let merged := merged_labels h ls in
  tenantID e = match merged !! ReservedLabelTenantID with
               | Some v => v
               | None => TenantID c
               end
  ∧ labels e = delete ReservedLabelTenantID merged
  ∧ labels e !! ReservedLabelTenantID = None
  ∧ (∀ now rest k st,
       (∀ e', e' ∈ rest → ∃ h' ls' t' s', e' = (Handle h' ls' t' s').2) →
       streams (newBatch now (e :: rest)) !! k = Some st →
       Labels st !! ReservedLabelTenantID = None)
  ∧ (∀ buf, req_header (newRequest (tenantID e) buf) !! "X-Scope-OrgID" =
              if decide (tenantID e = "") then None else Some (tenantID e))
  ∧ (∀ buf w, requests (send (tenantID e) buf w).1.1 =
                requests w ++ [newRequest (tenantID e) buf]).
Proof.
  intros e merged. subst e merged.
  destruct (Handle_spec h ls t s) as (He & _).
  assert (∀ h' ls' t' s', labels (Handle h' ls' t' s').2 !! ReservedLabelTenantID = None)
    as Hnone.
  { intros h' ls' t' s'. destruct (Handle_spec h' ls' t' s') as (-> & _).
    simpl. apply lookup_delete_eq. }
  split_and!.
  - rewrite He. simpl. unfold getTenantID.
    destruct (merged_labels h ls !! ReservedLabelTenantID); [done|].
    by destruct (decide (TenantID c ≠ "")) as [?|?%dec_stable].
  - by rewrite He.
  - apply Hnone.
  - intros now rest k st Hrest.
    apply (stream_labels_from_entries (λ l, l !! ReservedLabelTenantID = None)).
    intros e' [->|Hin]%elem_of_cons; [apply Hnone|].
    destruct (Hrest e' Hin) as (h' & ls' & t' & s' & ->). apply Hnone.
  - intros buf. apply newRequest_tenant_header.
  - intros buf w. apply send_world.
Qed.

(** C9: [Handle] leaves the caller's label set as it was, and every other
    map of the store too; when the caller's label set has the reserved key,
    the label set of the entry is a new map, not the caller's, and the key
    is deleted from that one. *)
Theorem Handle_keeps_caller_labels (h : store) (ls : ref) (t : Z) (s : string)
    (m : LabelSet) :
  h !! ls = Some m →
  let h' := (Handle h ls t s).1.1 in
  let ls' := (Handle h ls t s).1.2 in
  h' !! ls = Some m
  ∧ (∀ l, l ∈ dom h → h' !! l = h !! l)
  ∧ (is_Some (m !! ReservedLabelTenantID) →
       ls' ≠ ls
       ∧ (ls' ∉ dom h)
       ∧ deref h' ls' = delete ReservedLabelTenantID (merged_labels h ls)
       ∧ deref h' ls' !! ReservedLabelTenantID = None).
Proof.
  intros Hls h' ls'. subst h' ls'.
  destruct (Handle_spec h ls t s) as (He & Hd & Hfr & Hnew).
  assert (ls ∈ dom h) as Hdom by (by apply elem_of_dom_2 in Hls).
  split_and!.
  - by rewrite Hfr.
  - done.
  - intros [v Hv].
    assert (is_Some (merged_labels h ls !! ReservedLabelTenantID)) as Hm.
    { unfold merged_labels, deref. rewrite Hls. simpl.
      destruct (0 <? _); [|by eauto].
      exists v. by apply lookup_union_Some_l. }
    specialize (Hnew Hm). split_and!.
    + intros Heq. apply Hnew. by rewrite Heq.
    + done.
    + rewrite Hd, He. done.
    + rewrite Hd, He. simpl. apply lookup_delete_eq.
Qed.

(** [sizeBytesAfter] agrees with the size after [add] only for a line of
    two bytes. *)
Lemma sizeBytesAfter_vs_add (b : batch) (e : entry) :
  sizeBytesAfter b e = sizeBytes (add b e) ↔ len_string (line_of e) = 2.
Proof.
  unfold sizeBytesAfter, sizeBytes. rewrite add_bytes, len_value. lia.
Qed.

(** ** Further facts about the sender *)

Lemma send_cons tenantID buf w x srv :
  server w = x :: srv →
  send tenantID buf w =
    (mkWorld (now w + Z.of_N (elapsed x)) srv (requests w ++ [newRequest tenantID buf]) (logs w),
     (reply x).1, (reply x).2).
Proof.
  intros Hsrv. unfold send, Do, reply. rewrite Hsrv.
  destruct (outcome x) as [|code]; simpl; [done|].
  by destruct (code `quot` 100 =? 2).
Qed.

Lemma quot_100_2 (code : Z) : code `quot` 100 = 2 ↔ 200 ≤ code ≤ 299.
Proof.
  split.
  - intros H. pose proof (Z.quot_rem' code 100) as Hqr.
    destruct (Z.le_gt_cases 0 code).
    + pose proof (Z.rem_bound_pos code 100). lia.
    + pose proof (Z.rem_bound_pos_neg code 100). lia.
  - intros H. symmetry. apply Z.quot_unique with (r := code - 200); lia.
Qed.

Lemma reply_no_error (x : Exchange) : (reply x).2 = None ↔ 200 ≤ (reply x).1 ≤ 299.
Proof.
  unfold reply. destruct (outcome x) as [|code]; simpl.
  - split; [done|lia].
  - rewrite <-quot_100_2. destruct (Z.eqb_spec (code `quot` 100) 2); split; done.
Qed.

Lemma retried_error (x : Exchange) : retried x → is_Some (reply x).2.
Proof.
  unfold retried. intros Hr. destruct (reply x).2 as [e|] eqn:He; [by eexists|].
  apply reply_no_error in He. apply leaves_loop_false in Hr. lia.
Qed.

Lemma iter_Wait (k : nat) bk :
  Nat.iter k Wait bk = mkBackoff (backoff_cfg bk) (numRetries bk + Z.of_nat k).
Proof.
  induction k as [|k IH]; simpl.
  - destruct bk. simpl. f_equal. lia.
  - rewrite IH. unfold Wait. simpl. f_equal. lia.
Qed.

(** The loop over a run of retried exchanges that the backoff allows: one
    request and one warning for each, and the loop stands at the exchange
    after them. *)
Lemma retry_loop_retried (pre : list Exchange) :
  ∀ fuel tenantID buf n bk w rest status err,
    server w = pre ++ rest →
    Forall retried pre →
    (length pre ≤ fuel)%nat →
    (length pre ≤ remaining bk)%nat →
    retry_loop fuel tenantID buf n bk w status err =
      retry_loop (fuel - length pre) tenantID buf n (Nat.iter (length pre) Wait bk)
        (mkWorld (now w + duration pre) rest
                 (requests w ++ replicate (length pre) (newRequest tenantID buf))
                 (logs w ++ (warning n <$> pre)))
        (from_option (λ x, (reply x).1) status (last pre))
        (from_option (λ x, (reply x).2) err (last pre)).
Proof.
  induction pre as [|x pre IH]; intros fuel tenantID buf n bk w rest status err
    Hsrv Hall Hfuel Hrem.
  - simpl in *. rewrite Nat.sub_0_r, Z.add_0_r, !app_nil_r.
    destruct w. simpl in *. by subst.
  - apply Forall_cons in Hall as [Hx Hall]. simpl in Hfuel, Hrem.
    destruct fuel as [|fuel]; [lia|].
    assert (Ongoing bk = true) as Hon by (apply remaining_Ongoing; lia).
    rewrite retry_loop_step by done.
    rewrite (send_cons tenantID buf w x (pre ++ rest)) by done.
    cbn [fst snd]. unfold retried in Hx. rewrite Hx.
    replace (S fuel - length (x :: pre))%nat with (fuel - length pre)%nat
      by (simpl; lia).
    replace (Nat.iter (length (x :: pre)) Wait bk)
      with (Nat.iter (length pre) Wait (Wait bk))
      by (rewrite !iter_Wait; unfold Wait; simpl; f_equal; lia).
    replace (from_option (λ x0, (reply x0).1) status (last (x :: pre)))
      with (from_option (λ x0, (reply x0).1) (reply x).1 (last pre))
      by (rewrite (last_cons x pre); destruct (last pre); reflexivity).
    replace (from_option (λ x0, (reply x0).2) err (last (x :: pre)))
      with (from_option (λ x0, (reply x0).2) (reply x).2 (last pre))
      by (rewrite (last_cons x pre); destruct (last pre); reflexivity).
    rewrite (IH fuel tenantID buf n (Wait bk) _ rest); cbn [server log now requests logs].
    + by rewrite <-!app_assoc, <-Z.add_assoc.
    + done.
    + done.
    + lia.
    + rewrite (remaining_Wait bk Hon) in Hrem. lia.
Qed.

Lemma remaining_New : remaining (backoff_New (Backoff_Config c)) =
                      Z.to_nat (MaxRetries (Backoff_Config c)).
Proof. unfold remaining, backoff_New. simpl. f_equal. lia. Qed.

(** X1: when the server answers a run of [k] retried exchanges (status at
    most 0, 429 or 5xx) and then one that leaves the loop, with [k] below
    the retry budget, [sendBatch] issues exactly [k + 1] requests, all the
    same, logs one warning per retried exchange, and logs the final error
    exactly when the last answer carries one (it is not a 2xx); the clock
    has advanced by the time of the exchanges played. *)
Theorem sendBatch_delivers_after_retries tenantID b buf n w pre x rest :
  encodeJSON b = (buf, n, None) →
  server w = pre ++ x :: rest →
  Forall retried pre →
  leaves_loop (reply x).1 = true →
  Z.of_nat (length pre) < MaxRetries (Backoff_Config c) →
  sendBatch tenantID b w =
    mkWorld (now w + duration (pre ++ [x])) rest
            (requests w ++ replicate (S (length pre)) (newRequest tenantID buf))
            (logs w ++ (warning n <$> pre)
                    ++ match (reply x).2 with
                       | Some e => [LogFinalError (reply x).1 n e]
                       | None => []
                       end).
Proof.
  intros Henc Hsrv Hall Hleave Hlen. unfold sendBatch. rewrite Henc.
  rewrite (retry_loop_retried pre _ tenantID buf n _ w (x :: rest)); try done.
  2: lia.
  2: rewrite remaining_New; lia.
  replace (Z.to_nat (MaxRetries (Backoff_Config c)) - length pre)%nat
    with (S (Z.to_nat (MaxRetries (Backoff_Config c)) - length pre - 1)) by lia.
  rewrite retry_loop_step.
  2:{ rewrite iter_Wait. unfold Ongoing, backoff_New. simpl. apply Z.ltb_lt. lia. }
  rewrite (send_cons tenantID buf _ x rest) by done.
  cbn [fst snd now requests logs]. rewrite Hleave.
  assert (duration (pre ++ [x]) = duration pre + Z.of_N (elapsed x)) as ->.
  { clear. induction pre as [|y pre IH]; simpl; [lia|]. rewrite IH. lia. }
  assert (replicate (S (length pre)) (newRequest tenantID buf)
          = replicate (length pre) (newRequest tenantID buf) ++ [newRequest tenantID buf])
    as -> by (by rewrite replicate_S_end).
  destruct (reply x).2 as [e|]; simpl.
  - unfold log. simpl. by rewrite <-!app_assoc, Z.add_assoc.
  - by rewrite <-!app_assoc, app_nil_r, Z.add_assoc.
Qed.

(** X2: when the server answers as many retried exchanges as the retry budget
    allows attempts, [sendBatch] issues exactly that many requests, logs a
    warning for each and then the final error with the status and error of
    the last attempt; it plays no further exchange. *)
Theorem sendBatch_exhausts_retries tenantID b buf n w pre rest :
  encodeJSON b = (buf, n, None) →
  0 < MaxRetries (Backoff_Config c) →
  server w = pre ++ rest →
  length pre = Z.to_nat (MaxRetries (Backoff_Config c)) →
  Forall retried pre →
  ∃ xl e, last pre = Some xl ∧ (reply xl).2 = Some e
    ∧ sendBatch tenantID b w =
        mkWorld (now w + duration pre) rest
                (requests w ++ replicate (length pre) (newRequest tenantID buf))
                (logs w ++ (warning n <$> pre) ++ [LogFinalError (reply xl).1 n e]).
Proof.
  intros Henc Hmax Hsrv Hlen Hall.
  destruct (last pre) as [xl|] eqn:Hlast.
  2:{ apply last_None in Hlast. subst pre. simpl in Hlen. lia. }
  assert (retried xl) as Hxl.
  { rewrite Forall_forall in Hall. apply Hall. by apply last_Some_elem_of. }
  destruct (retried_error xl Hxl) as [e He].
  exists xl, e. split_and!; [done|done|].
  unfold sendBatch. rewrite Henc.
  rewrite (retry_loop_retried pre _ tenantID buf n _ w rest); try done.
  2: lia.
  2: rewrite remaining_New; lia.
  rewrite Hlen, Nat.sub_diag, Hlast. simpl. rewrite He.
  unfold log. simpl. by rewrite <-!app_assoc.
Qed.

(** X3: [send] returns no error exactly when the status it returns is in
    200..299; every other answer, and a failed connection (status -1),
    comes back with an error.  Each call issues exactly one request. *)
Theorem send_error_iff_not_2xx tenantID buf w :
  ((send tenantID buf w).2 = None ↔ 200 ≤ (send tenantID buf w).1.2 ≤ 299)
  ∧ (server w = [] → (send tenantID buf w).1.2 = -1)
  ∧ (∀ x srv, server w = x :: srv → outcome x = ConnError →
       (send tenantID buf w).1.2 = -1)
  ∧ requests (send tenantID buf w).1.1 = requests w ++ [newRequest tenantID buf].
Proof.
  split_and!.
  - destruct (server w) as [|x srv] eqn:Hsrv.
    + unfold send, Do. rewrite Hsrv. simpl. split; [done|lia].
    + rewrite (send_cons tenantID buf w x srv Hsrv). simpl. apply reply_no_error.
  - intros Hsrv. unfold send, Do. by rewrite Hsrv.
  - intros x srv Hsrv Hout. rewrite (send_cons tenantID buf w x srv Hsrv).
    simpl. unfold reply. by rewrite Hout.
  - apply send_world.
Qed.

(** What one call of the loop uses up: [k] exchanges, with [k] requests, all
    the same. *)
Lemma retry_loop_consumes fuel tenantID buf n bk w status err :
  ∃ k, (k ≤ fuel)%nat
    ∧ requests (retry_loop fuel tenantID buf n bk w status err).1.1
      = requests w ++ replicate k (newRequest tenantID buf)
    ∧ server (retry_loop fuel tenantID buf n bk w status err).1.1 = drop k (server w)
    ∧ now (retry_loop fuel tenantID buf n bk w status err).1.1
      = now w + duration (take k (server w))
    ∧ (length (logs (retry_loop fuel tenantID buf n bk w status err).1.1)
       ≤ length (logs w) + k)%nat.
Proof.
  revert bk w status err.
  induction fuel as [|fuel IH]; intros bk w status err.
  - exists 0%nat. simpl. rewrite app_nil_r, drop_0. split_and!; try done; lia.
  - destruct (Ongoing bk) eqn:Hon.
    2:{ rewrite retry_loop_stop by done. exists 0%nat. simpl.
        rewrite app_nil_r, drop_0. split_and!; try done; lia. }
    rewrite retry_loop_step by done.
    assert (∃ w1, (send tenantID buf w).1.1 = w1
              ∧ requests w1 = requests w ++ [newRequest tenantID buf]
              ∧ server w1 = drop 1 (server w)
              ∧ now w1 = now w + duration (take 1 (server w))
              ∧ logs w1 = logs w) as (w1 & Hw1 & Hreq & Hsrv & Hnow & Hlog).
    { eexists. split; [done|]. unfold send, Do.
      destruct (server w) as [|x srv]; simpl.
      - split_and!; try done. lia.
      - destruct (outcome x); simpl; split_and!; try done; lia. }
    destruct (leaves_loop (send tenantID buf w).1.2).
    + exists 1%nat. rewrite Hw1. split_and!; try done; [lia|rewrite Hlog; lia].
    + rewrite Hw1.
      destruct (IH (Wait bk) (log w1 (LogWillRetry (send tenantID buf w).1.2 n
                                        (send tenantID buf w).2))
                   (send tenantID buf w).1.2 (send tenantID buf w).2)
        as (k & Hk & IHreq & IHsrv & IHnow & IHlog).
      exists (S k). simpl in IHreq, IHsrv, IHnow, IHlog.
      split_and!.
      * lia.
      * rewrite IHreq, Hreq, <-app_assoc. done.
      * rewrite IHsrv, Hsrv. by rewrite drop_drop.
      * rewrite IHnow, Hnow, Hsrv. destruct (server w) as [|x srv]; simpl.
        -- rewrite take_nil. simpl. lia.
        -- rewrite drop_0. lia.
      * rewrite length_app, Hlog in IHlog. simpl in IHlog. lia.
Qed.

Lemma sendBatch_consumes tenantID b w :
  ∃ k, (k ≤ Z.to_nat (MaxRetries (Backoff_Config c)))%nat
    ∧ requests (sendBatch tenantID b w)
      = requests w ++ replicate k (newRequest tenantID (encodeJSON b).1.1)
    ∧ server (sendBatch tenantID b w) = drop k (server w)
    ∧ now (sendBatch tenantID b w) = now w + duration (take k (server w))
    ∧ (length (logs (sendBatch tenantID b w)) ≤ length (logs w) + k + 1)%nat.
Proof.
  unfold sendBatch. destruct (encodeJSON b) as [[buf n] [err|]]; simpl.
  - exists 0%nat. rewrite app_nil_r, drop_0, length_app. simpl.
    split_and!; try done; lia.
  - destruct (retry_loop_consumes (Z.to_nat (MaxRetries (Backoff_Config c)))
                tenantID buf n (backoff_New (Backoff_Config c)) w 0 None)
      as (k & Hk & Hreq & Hsrv & Hnow & Hlog).
    destruct (retry_loop _ _ _ _ _ _ _ _) as [[w' status] err]. simpl in *.
    exists k. destruct err as [e|]; simpl; rewrite ?length_app; simpl;
      split_and!; try done; lia.
Qed.

(** X4: whatever the server does, one call of [sendBatch] issues at most
    [MaxRetries] requests, all the same request (the batch is encoded once:
    same tenant, same payload); it plays as many exchanges of the server as
    it issues requests, the clock advances by their time, and it logs at
    most one line per request and one more. *)
Theorem sendBatch_bounded tenantID b w :
  ∃ k, (k ≤ Z.to_nat (MaxRetries (Backoff_Config c)))%nat
    ∧ requests (sendBatch tenantID b w)
      = requests w ++ replicate k (newRequest tenantID (encodeJSON b).1.1)
    ∧ server (sendBatch tenantID b w) = drop k (server w)
    ∧ now (sendBatch tenantID b w) = now w + duration (take k (server w))
    ∧ (length (logs (sendBatch tenantID b w)) ≤ length (logs w) + k + 1)%nat.
Proof. apply sendBatch_consumes. Qed.

(** ** Further facts about the dispatcher *)

(** What holds of the world and of the record of calls after a run: a
    property kept by the waits in [select] and by a [sendBatch] call holds
    at the end when it holds at the start.  The dispatcher touches the world
    in no other way. *)
Section WorldInduction.

Variable P : World → list Flush → Prop.

Hypothesis P_sleep : ∀ w fls d, P w fls → P (sleep d w) fls.
Hypothesis P_flush : ∀ w fls why t b,
  P w fls → P (sendBatch t b w) (fls ++ [mkFlush t b why (now w)]).

Lemma flush_world_ind why t b st :
  P (world st) (flushed st) →
  P (world (flush why t b st)) (flushed (flush why t b st)).
Proof. intros H. unfold flush. simpl. by apply P_flush. Qed.

Lemma handle_world_ind ev st :
  P (world st) (flushed st) → P (world (handle ev st)) (flushed (handle ev st)).
Proof.
  intros Hst. destruct ev as [e|]; simpl.
  - unfold onEntry. destruct (batches st !! tenantID e) as [b|]; [|done].
    destruct (BatchSize c <? sizeBytesAfter b e); [|done].
    simpl. by apply P_flush.
  - unfold onTick. generalize (map_to_list (batches st)). intros l.
    revert st Hst. induction l as [|[t b] l IH]; intros st Hst; [done|].
    cbn [fold_left]. apply IH. unfold checkAge.
    destruct (age (now (world st)) b <? BatchWait c); [done|].
    simpl. by apply P_flush.
Qed.

Lemma select_loop_world_ind evs st :
  P (world st) (flushed st) →
  P (world (select_loop st evs)) (flushed (select_loop st evs)).
Proof.
  revert st. induction evs as [|[d ev] evs IH]; intros st Hst; [done|].
  apply IH. apply handle_world_ind. simpl. by apply P_sleep.
Qed.

Lemma drain_world_ind st :
  P (world st) (flushed st) → P (world (drain st)) (flushed (drain st)).
Proof.
  unfold drain. generalize (map_to_list (batches st)). intros l.
  revert st. induction l as [|[t b] l IH]; intros st Hst; [done|].
  cbn [fold_left fst snd]. apply IH. by apply flush_world_ind.
Qed.

Lemma run_world_ind w evs d :
  P w [] → P (world (run w evs d)) (flushed (run w evs d)).
Proof.
  intros Hw. unfold run. apply drain_world_ind. simpl. apply P_sleep.
  by apply (select_loop_world_ind evs (mkState ∅ w [])).
Qed.

End WorldInduction.

Lemma newRequest_fixed tenantID buf :
  req_method (newRequest tenantID buf) = "POST"
  ∧ req_url (newRequest tenantID buf) = URL c
  ∧ req_body (newRequest tenantID buf) = buf
  ∧ req_header (newRequest tenantID buf) !! "Content-Type" = Some "application/json"
  ∧ req_header (newRequest tenantID buf) !! "User-Agent" = Some "LokiGoClient/0.0.1".
Proof.
  unfold newRequest. simpl. split_and!; try done.
  - destruct (decide (tenantID ≠ "")).
    + do 2 rewrite lookup_insert_ne by done. by rewrite lookup_insert_eq.
    + rewrite lookup_insert_ne by done. by rewrite lookup_insert_eq.
  - destruct (decide (tenantID ≠ "")).
    + rewrite lookup_insert_ne by done. by rewrite lookup_insert_eq.
    + by rewrite lookup_insert_eq.
Qed.

(** X5: every request a run of the dispatcher issues is the request of a
    batch it handed to [sendBatch]: a POST to the configured URL, with the
    JSON content type and the user agent, for the tenant under which the
    batch was pending, with the payload [encodeJSON] gives for that batch.
    The dispatcher issues no other request. *)
Theorem requests_come_from_flushes (w : World) (evs : list (N * Event)) (d : N) :
  ∃ news, requests (world (run w evs d)) = requests w ++ news
    ∧ ∀ r, r ∈ news →
        (∃ fl, fl ∈ flushed (run w evs d)
               ∧ r = newRequest (fl_tenant fl) (encodeJSON (fl_batch fl)).1.1)
        ∧ req_method r = "POST"
        ∧ req_url r = URL c
        ∧ req_header r !! "Content-Type" = Some "application/json"
        ∧ req_header r !! "User-Agent" = Some "LokiGoClient/0.0.1".
Proof.
  pose (P := λ (w' : World) (fls : list Flush),
          ∃ news, requests w' = requests w ++ news
            ∧ Forall (λ r, ∃ fl, fl ∈ fls
                       ∧ r = newRequest (fl_tenant fl) (encodeJSON (fl_batch fl)).1.1) news).
  assert (P (world (run w evs d)) (flushed (run w evs d))) as (news & Hreq & Hall).
  { apply run_world_ind.
    - intros w' fls d' (news & Hreq & Hall). by exists news.
    - intros w' fls why t b (news & Hreq & Hall).
      destruct (sendBatch_consumes t b w') as (k & _ & Hk & _).
      exists (news ++ replicate k (newRequest t (encodeJSON b).1.1)). split.
      + by rewrite Hk, Hreq, <-app_assoc.
      + apply Forall_app. split.
        * eapply Forall_impl; [exact Hall|]. intros r (fl & Hfl & ->).
          exists fl. split; [|done]. apply elem_of_app. by left.
        * apply Forall_forall. intros r Hr. apply elem_of_replicate in Hr as [-> _].
          eexists. split; [apply elem_of_app; right; left|done].
    - exists []. by rewrite app_nil_r. }
  exists news. split; [done|]. intros r Hr.
  rewrite Forall_forall in Hall. destruct (Hall r Hr) as (fl & Hfl & ->).
  destruct (newRequest_fixed (fl_tenant fl) (encodeJSON (fl_batch fl)).1.1)
    as (? & ? & _ & ? & ?).
  split_and!; try done. by exists fl.
Qed.

(** X6: when the encoder rejects the push requests, a run issues no request
    and plays no exchange of the server: each [sendBatch] call only logs the
    encoding error, so the log grows by one such line per call, and the
    batches are given up. *)
Theorem encoding_failure_sends_nothing (w : World) (evs : list (N * Event)) (d : N) :
  (∀ req, ∃ err, json_Marshal req = inr err) →
  requests (world (run w evs d)) = requests w
  ∧ server (world (run w evs d)) = server w
  ∧ ∃ errs, length errs = length (flushed (run w evs d))
      ∧ logs (world (run w evs d)) = logs w ++ (LogEncodingError <$> errs).
Proof.
  intros Hrej.
  pose (P := λ (w' : World) (fls : list Flush),
          requests w' = requests w ∧ server w' = server w
          ∧ ∃ errs, length errs = length fls
              ∧ logs w' = logs w ++ (LogEncodingError <$> errs)).
  apply (run_world_ind P).
  - intros w' fls d' H. exact H.
  - intros w' fls why t b (Hreq & Hsrv & errs & Hlen & Hlog).
    unfold sendBatch, encodeJSON.
    destruct (createPushRequest b) as [req n].
    destruct (Hrej req) as [err ->]. simpl.
    split_and!; [done|done|]. exists (errs ++ [err]). split.
    + rewrite !length_app. simpl. lia.
    + simpl. by rewrite Hlog, fmap_app, <-app_assoc.
  - split_and!; [done|done|]. exists []. by rewrite app_nil_r.
Qed.

(** What holds of every batch the dispatcher makes: a property that
    [newBatch] on one entry establishes and that [add] keeps, where the
    dispatcher calls it (the size test has passed), holds of every pending
    batch and of every batch handed to [sendBatch]. *)
Section BatchInduction.

Variable P : string → batch → Prop.

Hypothesis P_new : ∀ now e, P (tenantID e) (newBatch now [e]).
Hypothesis P_add : ∀ b e,
  P (tenantID e) b → sizeBytesAfter b e ≤ BatchSize c → P (tenantID e) (add b e).

Lemma onEntry_every_batch e st : every_batch P st → every_batch P (onEntry e st).
Proof.
  intros [Hpend Hfl]. unfold onEntry.
  destruct (batches st !! tenantID e) as [b|] eqn:Hb.
  - destruct (Z.ltb_spec (BatchSize c) (sizeBytesAfter b e)); split; simpl.
    + intros t b'. rewrite lookup_insert. case_decide as Ht.
      * intros [= <-]. subst t. apply P_new.
      * apply Hpend.
    + apply Forall_app. split; [done|]. constructor; [|done]. simpl. by apply Hpend.
    + intros t b'. rewrite lookup_insert. case_decide as Ht.
      * intros [= <-]. subst t. apply P_add; [by apply Hpend|done].
      * apply Hpend.
    + done.
  - split; simpl; [|done].
    intros t b'. rewrite lookup_insert. case_decide as Ht.
    + intros [= <-]. subst t. apply P_new.
    + apply Hpend.
Qed.

Lemma onTick_every_batch st : every_batch P st → every_batch P (onTick st).
Proof.
  intros [Hpend Hfl].
  destruct (checkAge_loop (map_to_list (batches st)) st)
    as (_ & news & Hnews & Hall & _ & Hlk).
  split.
  - intros t b. unfold onTick. rewrite Hlk. destruct (bool_decide _); [done|].
    apply Hpend.
  - unfold onTick. rewrite Hnews. apply Forall_app. split; [done|].
    eapply Forall_impl; [exact Hall|]. intros fl (_ & Hin & _).
    apply Hpend. by apply elem_of_map_to_list.
Qed.

Lemma handle_every_batch ev st : every_batch P st → every_batch P (handle ev st).
Proof.
  destruct ev as [e|]; simpl; [apply onEntry_every_batch|apply onTick_every_batch].
Qed.

Lemma select_loop_every_batch evs st :
  every_batch P st → every_batch P (select_loop st evs).
Proof.
  revert st. induction evs as [|[d ev] evs IH]; intros st Hst; [done|].
  apply IH. by apply handle_every_batch.
Qed.

Lemma drain_every_batch st : every_batch P st → every_batch P (drain st).
Proof.
  intros [Hpend Hfl]. unfold drain.
  destruct (drain_loop (map_to_list (batches st)) st)
    as (Hb & _ & drained & Hdr & Hl & _).
  split.
  - intros t b. rewrite Hb. apply Hpend.
  - rewrite Hdr. apply Forall_app. split; [done|].
    apply Forall_forall. intros fl Hin. apply Hpend. apply elem_of_map_to_list.
    rewrite <-Hl. apply list_elem_of_fmap. by exists fl.
Qed.

Lemma run_every_batch w evs d : every_batch P (run w evs d).
Proof.
  unfold run. apply drain_every_batch.
  apply (select_loop_every_batch evs (mkState ∅ w [])).
  split; [|constructor]. intros t b. simpl. by rewrite lookup_empty.
Qed.

End BatchInduction.

Lemma built_new now e : built (tenantID e) (newBatch now [e]).
Proof. exists now, [e]. split_and!; [done|done|by constructor]. Qed.

Lemma built_add b e :
  built (tenantID e) b → sizeBytesAfter b e ≤ BatchSize c →
  built (tenantID e) (add b e).
Proof.
  intros (now & es & Hne & -> & Hall) _. exists now, (es ++ [e]). split_and!.
  - by destruct es.
  - by rewrite <-newBatch_app.
  - apply Forall_app. split; [done|by constructor].
Qed.

(** X7: every batch a run hands to [sendBatch] is [newBatch] on a non-empty
    list of entries, all of the tenant it is sent for: the dispatcher never
    sends an empty batch nor a batch that mixes tenants.  Its entry count
    is the length of that list, at least 1, and its size the sum of the
    lengths of their lines. *)
Theorem flushed_batches_are_built (w : World) (evs : list (N * Event)) (d : N)
    (fl : Flush) :
  fl ∈ flushed (run w evs d) →
  ∃ now es,
    es ≠ []
    ∧ fl_batch fl = newBatch now es
    ∧ Forall (λ e, tenantID e = fl_tenant fl) es
    ∧ (createPushRequest (fl_batch fl)).2 = Z.of_nat (length es)
    ∧ 1 ≤ (createPushRequest (fl_batch fl)).2
    ∧ sizeBytes (fl_batch fl) = total_line_bytes es.
Proof.
  intros Hin.
  destruct (run_every_batch built built_new built_add w evs d) as [_ Hall].
  rewrite Forall_forall in Hall. destruct (Hall fl Hin) as (now & es & Hne & Hb & Htn).
  exists now, es.
  assert ((createPushRequest (fl_batch fl)).2 = Z.of_nat (length es)) as Hcount.
  { rewrite Hb, createPushRequest_eq. simpl. f_equal.
    rewrite (Permutation_length (batch_pairs_newBatch now es)). apply length_fmap. }
  split_and!; try done.
  - rewrite Hcount. destruct es; [done|]. simpl. lia.
  - rewrite Hb. unfold sizeBytes, newBatch. rewrite fold_add_bytes. simpl. lia.
Qed.

Lemma idle_created_before_now d st :
  created_before_now st → created_before_now (idle d st).
Proof. intros H t b Hb. specialize (H t b Hb). simpl in *. lia. Qed.

Lemma handle_created_before_now ev st :
  created_before_now st → created_before_now (handle ev st).
Proof.
  intros Hst. destruct ev as [e|]; simpl.
  - unfold onEntry. destruct (batches st !! tenantID e) as [b|] eqn:Hb.
    + destruct (BatchSize c <? sizeBytesAfter b e).
      * pose proof (flush_now Overflow (tenantID e) b st) as Hnow.
        intros t b'. simpl. rewrite lookup_insert. case_decide.
        -- intros [= <-]. unfold newBatch. rewrite fold_add_createdAt. simpl. lia.
        -- intros Hb'. specialize (Hst t b' Hb'). simpl in Hnow. lia.
      * intros t b'. simpl. rewrite lookup_insert. case_decide.
        -- intros [= <-]. rewrite add_createdAt. by apply (Hst (tenantID e)).
        -- apply Hst.
    + intros t b'. simpl. rewrite lookup_insert. case_decide.
      * intros [= <-]. unfold newBatch. rewrite fold_add_createdAt. simpl. lia.
      * apply Hst.
  - destruct (checkAge_loop (map_to_list (batches st)) st)
      as (Hnow & news & _ & _ & _ & Hlk).
    intros t b. unfold onTick. rewrite Hlk. destruct (bool_decide _); [done|].
    intros Hb. specialize (Hst t b Hb). lia.
Qed.

Lemma select_loop_created_before_now evs st :
  created_before_now st → created_before_now (select_loop st evs).
Proof.
  revert st. induction evs as [|[d ev] evs IH]; intros st Hst; [done|].
  apply IH. by apply handle_created_before_now, idle_created_before_now.
Qed.

(** X8: with a [BatchWait] of zero or less, every tick sends all that is
    pending: whatever the loop has handled before, after a tick the pending
    map is empty, and every batch that was pending has been handed to
    [sendBatch] by the age check. *)
Theorem nonpositive_wait_flushes_all (w : World) (evs : list (N * Event)) (d : N) :
  BatchWait c ≤ 0 →
  let st := idle d (select_loop (mkState ∅ w []) evs) in
  batches (onTick st) = ∅
  ∧ ∀ t b, batches st !! t = Some b →
      ∃ at_, mkFlush t b Aged at_ ∈ flushed (onTick st).
Proof.
  intros Hwait st.
  assert (created_before_now st) as Hst.
  { apply idle_created_before_now.
    apply (select_loop_created_before_now evs (mkState ∅ w [])).
    intros t b. simpl. by rewrite lookup_empty. }
  destruct (checkAge_loop (map_to_list (batches st)) st)
    as (_ & news & Hfl & _ & Hold & Hlk).
  assert (∀ t b, batches st !! t = Some b → ∃ at_, mkFlush t b Aged at_ ∈ news) as Hall.
  { intros t b Hb. apply Hold; [by apply elem_of_map_to_list|].
    specialize (Hst t b Hb). unfold age. lia. }
  split.
  - apply map_eq. intros t. rewrite lookup_empty. unfold onTick. rewrite Hlk.
    destruct (batches st !! t) as [b|] eqn:Hb; [|by destruct (bool_decide _)].
    destruct (Hall t b Hb) as [at_ Hin].
    rewrite bool_decide_eq_true_2; [done|].
    apply list_elem_of_fmap. by exists (mkFlush t b Aged at_).
  - intros t b Hb. destruct (Hall t b Hb) as [at_ Hin]. exists at_.
    unfold onTick. rewrite Hfl. apply elem_of_app. by right.
Qed.

(** ** The order of the values *)

Lemma stream_values_add b e k :
  stream_values (add b e) k =
    stream_values b k ++ (if decide (key_of e = k) then [value e] else []).
Proof.
  unfold stream_values. rewrite add_streams.
  destruct (decide (key_of e = k)) as [<-|Hne].
  - rewrite lookup_insert_eq. by destruct (streams b !! key_of e).
  - rewrite lookup_insert_ne by done. by rewrite app_nil_r.
Qed.

Lemma stream_values_new now e k :
  stream_values (newBatch now [e]) k = if decide (key_of e = k) then [value e] else [].
Proof.
  unfold newBatch. cbn [fold_left]. rewrite stream_values_add.
  unfold stream_values. simpl. by rewrite lookup_empty.
Qed.

Lemma arrived_one t k e :
  arrived t k [e] =
    if decide (tenantID e = t) then (if decide (key_of e = k) then [value e] else [])
    else [].
Proof.
  unfold arrived. rewrite filter_cons, filter_nil.
  destruct (decide (tenantID e = t)) as [Ht|Ht], (decide (key_of e = k)) as [Hk|Hk].
  - by rewrite decide_True.
  - by rewrite decide_False by (by intros [_ ?]).
  - by rewrite decide_False by (by intros [? _]).
  - by rewrite decide_False by (by intros [? _]).
Qed.

Lemma sent_values_snoc t k fls fl :
  sent_values t k (fls ++ [fl]) =
    sent_values t k fls
    ++ (if decide (fl_tenant fl = t) then stream_values (fl_batch fl) k else []).
Proof. unfold sent_values. by rewrite bind_app, bind_singleton. Qed.

Lemma onEntry_values t k e st :
  sent_values t k (flushed (onEntry e st)) ++ pending_values t k (onEntry e st)
  = (sent_values t k (flushed st) ++ pending_values t k st) ++ arrived t k [e].
Proof.
  rewrite arrived_one. unfold onEntry, pending_values.
  destruct (batches st !! tenantID e) as [b|] eqn:Hb.
  - destruct (BatchSize c <? sizeBytesAfter b e); unfold flush; cbn [batches flushed world].
    + rewrite sent_values_snoc. cbn [fl_tenant fl_batch].
      destruct (decide (tenantID e = t)) as [<-|Hne].
      * rewrite lookup_insert_eq, Hb. simpl. rewrite stream_values_new.
        by rewrite <-!app_assoc.
      * rewrite lookup_insert_ne by done. by rewrite !app_nil_r.
    + destruct (decide (tenantID e = t)) as [<-|Hne].
      * rewrite lookup_insert_eq, Hb. simpl. rewrite stream_values_add.
        by rewrite <-!app_assoc.
      * rewrite lookup_insert_ne by done. by rewrite !app_nil_r.
  - cbn [batches flushed world].
    destruct (decide (tenantID e = t)) as [<-|Hne].
    + rewrite lookup_insert_eq, Hb. simpl. rewrite stream_values_new.
      by rewrite !app_nil_r.
    + rewrite lookup_insert_ne by done. by rewrite !app_nil_r.
Qed.

Lemma checkAge_values t k (l : list (string * batch)) (st : State) :
  NoDup l.*1 →
  (∀ t' b, (t', b) ∈ l → batches st !! t' = Some b) →
  sent_values t k (flushed (fold_left checkAge l st))
    ++ pending_values t k (fold_left checkAge l st)
  = sent_values t k (flushed st) ++ pending_values t k st.
Proof.
  revert st. induction l as [|[t' b] l IH]; intros st Hnd Hl; cbn [fold_left]; [done|].
  rewrite fmap_cons in Hnd. apply NoDup_cons in Hnd as [Hnin Hnd].
  destruct (Z.lt_ge_cases (age (now (world st)) b) (BatchWait c)) as [Hy|Ho].
  - rewrite (checkAge_young st t' b Hy). apply IH; [done|].
    intros t'' b' Hin. apply Hl. by right.
  - rewrite (checkAge_old st t' b Ho). rewrite IH; [|done|].
    + cbn [batches flushed world]. rewrite sent_values_snoc. cbn [fl_tenant fl_batch].
      unfold pending_values. cbn [batches].
      destruct (decide (t' = t)) as [->|Hne].
      * rewrite lookup_delete_eq, (Hl t b) by left. simpl. by rewrite !app_nil_r.
      * rewrite lookup_delete_ne by done. by rewrite !app_nil_r.
    + intros t'' b' Hin. simpl. rewrite lookup_delete_ne.
      * apply Hl. by right.
      * intros ->. apply Hnin. apply list_elem_of_fmap. by exists (t'', b').
Qed.

Lemma handle_values t k ev st :
  sent_values t k (flushed (handle ev st)) ++ pending_values t k (handle ev st)
  = (sent_values t k (flushed st) ++ pending_values t k st)
    ++ arrived t k (entries_of [(0%N, ev)]).
Proof.
  destruct ev as [e|]; simpl.
  - apply onEntry_values.
  - unfold arrived. simpl. rewrite app_nil_r. apply checkAge_values.
    + apply NoDup_fst_map_to_list.
    + intros t' b. apply elem_of_map_to_list.
Qed.

Lemma arrived_app t k es1 es2 : arrived t k (es1 ++ es2) = arrived t k es1 ++ arrived t k es2.
Proof. unfold arrived. by rewrite filter_app, fmap_app. Qed.

Lemma select_loop_values t k evs st :
  sent_values t k (flushed (select_loop st evs)) ++ pending_values t k (select_loop st evs)
  = (sent_values t k (flushed st) ++ pending_values t k st)
    ++ arrived t k (entries_of evs).
Proof.
  revert st. induction evs as [|[d ev] evs IH]; intros st.
  - unfold arrived. simpl. by rewrite app_nil_r.
  - unfold select_loop in *. cbn [fold_left fst snd]. rewrite IH, handle_values.
    change (flushed (idle d st)) with (flushed st).
    change (pending_values t k (idle d st)) with (pending_values t k st).
    rewrite <-app_assoc. f_equal. rewrite <-arrived_app. f_equal.
    unfold entries_of. simpl. by destruct ev.
Qed.

(** Among pairs with distinct keys, selecting by key finds at most one. *)
Lemma bind_select_absent {A} (f : batch → list A) (l : list (string * batch)) t :
  t ∉ l.*1 →
  l ≫= (λ kv, if decide (kv.1 = t) then f kv.2 else []) = [].
Proof.
  induction l as [|[t' b] l IH]; intros Hnin; [done|].
  rewrite fmap_cons in Hnin. apply not_elem_of_cons in Hnin as [Hne Hnin].
  rewrite bind_cons. simpl. rewrite decide_False by done. by apply IH.
Qed.

Lemma bind_select_present {A} (f : batch → list A) (l : list (string * batch)) t b :
  NoDup l.*1 → (t, b) ∈ l →
  l ≫= (λ kv, if decide (kv.1 = t) then f kv.2 else []) = f b.
Proof.
  induction l as [|[t' b'] l IH]; intros Hnd Hin; [by apply not_elem_of_nil in Hin|].
  rewrite fmap_cons in Hnd. apply NoDup_cons in Hnd as [Hnin Hnd].
  rewrite bind_cons. simpl. apply elem_of_cons in Hin as [Heq|Hin].
  - simplify_eq. rewrite decide_True by done.
    rewrite bind_select_absent by done. by rewrite app_nil_r.
  - rewrite decide_False.
    + by apply IH.
    + intros ->. apply Hnin. apply list_elem_of_fmap. by exists (t, b).
Qed.

Lemma drain_values t k st :
  sent_values t k (flushed (drain st))
  = sent_values t k (flushed st) ++ pending_values t k st.
Proof.
  unfold drain.
  destruct (drain_loop (map_to_list (batches st)) st)
    as (_ & _ & drained & Hfl & Hl & _).
  rewrite Hfl. unfold sent_values at 1. rewrite bind_app. f_equal.
  transitivity (((λ fl, (fl_tenant fl, fl_batch fl)) <$> drained)
                  ≫= (λ kv, if decide (kv.1 = t) then stream_values kv.2 k else [])).
  { by rewrite list_fmap_bind. }
  rewrite Hl. unfold pending_values.
  destruct (batches st !! t) as [b|] eqn:Hb; simpl.
  - apply (bind_select_present (λ b, stream_values b k)).
    + apply NoDup_fst_map_to_list.
    + by apply elem_of_map_to_list.
  - apply (bind_select_absent (λ b, stream_values b k)).
    intros Hin. apply list_elem_of_fmap in Hin as ([t' b] & -> & Hin).
    apply elem_of_map_to_list in Hin. simpl in Hb. congruence.
Qed.

(** X9: for every tenant and every serialized label set, the values that the
    batches handed to [sendBatch] hold in that stream, taken call after
    call, are the values of the entries the loop received for that tenant
    and label set, in arrival order, each once: the dispatcher neither
    reorders, nor repeats, nor loses a line of a stream. *)
Theorem values_sent_in_arrival_order (w : World) (evs : list (N * Event)) (d : N)
    (t k : string) :
  sent_values t k (flushed (run w evs d)) = arrived t k (entries_of evs).
Proof.
  unfold run. rewrite drain_values.
  change (flushed (idle d ?s)) with (flushed s).
  change (pending_values t k (idle d ?s)) with (pending_values t k s).
  rewrite select_loop_values. unfold sent_values, pending_values. simpl.
  by rewrite lookup_empty.
Qed.

(** ** Runs in which nothing is due *)

Lemma sleep_sleep d1 d2 w : sleep d2 (sleep d1 w) = sleep (d1 + d2) w.
Proof. unfold sleep. simpl. f_equal. lia. Qed.

(** X10: a run that receives no entry, only ticks, makes no [sendBatch]
    call, issues no request and logs nothing; nothing is pending at the end
    and only time has passed. *)
Theorem run_without_entries (w : World) (evs : list (N * Event)) (d : N) :
  entries_of evs = [] →
  ∃ dt, run w evs d = mkState ∅ (sleep dt w) [].
Proof.
  intros Hno.
  assert (∃ dt, select_loop (mkState ∅ w []) evs = mkState ∅ (sleep dt w) [])
    as [dt Hloop].
  { revert w Hno. induction evs as [|[d' ev] evs IH]; intros w Hno.
    - exists 0%N. unfold sleep. simpl. destruct w. simpl. f_equal. f_equal. lia.
    - destruct ev as [e|]; [done|].
      unfold select_loop in *. cbn [fold_left fst snd].
      assert (handle Tick (idle d' (mkState ∅ w [])) = mkState ∅ (sleep d' w) []) as ->.
      { unfold handle, onTick, idle. simpl. by rewrite map_to_list_empty. }
      destruct (IH (sleep d' w) Hno) as [dt ->].
      exists (d' + dt)%N. by rewrite sleep_sleep. }
  exists (dt + d)%N. unfold run. rewrite Hloop.
  unfold drain, idle. simpl. by rewrite map_to_list_empty, sleep_sleep.
Qed.

(** X11: a tick at which every pending batch is younger than [BatchWait]
    changes nothing: no call, no request, and the pending map as it was. *)
Theorem onTick_nothing_due (st : State) :
  (∀ t b, batches st !! t = Some b → age (now (world st)) b < BatchWait c) →
  onTick st = st.
Proof.
  intros Hyoung. unfold onTick.
  assert (Forall (λ kv : string * batch, age (now (world st)) kv.2 < BatchWait c)
                 (map_to_list (batches st))) as Hall.
  { apply Forall_forall. intros [t b] Hin. apply (Hyoung t). by apply elem_of_map_to_list. }
  induction Hall as [|[t b] l Hy _ IH]; [done|].
  cbn [fold_left]. by rewrite (checkAge_young st t b Hy).
Qed.

(** ** The shape of a push request *)

(** X12: the push request of a batch built from any list of entries (none
    included) has one stream per distinct serialized label set, no two
    streams with the same serialization, and no stream without values; each
    stream carries the labels of an entry and exactly the values of the
    entries with that entry's serialization, in arrival order. *)
Theorem push_request_shape (now : Z) (es : list entry) :
  let req := (createPushRequest (newBatch now es)).1 in
  NoDup ((λ s, LabelSet_String (Labels s)) <$> Streams req)
  ∧ Forall (λ s, Values s ≠ []) (Streams req)
  ∧ length (Streams req) = length (remove_dups (key_of <$> es))
  ∧ (∀ s, s ∈ Streams req →
       ∃ e, e ∈ es ∧ Labels s = labels e
            ∧ Values s = value <$> with_key (key_of e) es).
Proof.
  intros req. subst req. rewrite createPushRequest_eq. simpl.
  set (b := newBatch now es).
  assert (∀ k s, (k, s) ∈ map_to_list (streams b) →
            ∃ e, e ∈ es ∧ key_of e = k ∧ s = mkStream (labels e) (value <$> with_key k es)
                 ∧ with_key k es ≠ []) as Hin.
  { intros k s Hks. apply elem_of_map_to_list in Hks. unfold b in Hks.
    rewrite newBatch_lookup in Hks.
    destruct (with_key k es) as [|e0 l] eqn:Hl; [done|]. simpl in Hks.
    injection Hks as <-. exists e0.
    assert (e0 ∈ with_key k es) as He0 by (rewrite Hl; left).
    apply list_elem_of_filter in He0 as [Hk He0]. done. }
  split_and!.
  - assert ((λ s, LabelSet_String (Labels s)) <$> (map_to_list (streams b)).*2
            = (map_to_list (streams b)).*1) as ->.
    { rewrite <-list_fmap_compose. apply list_fmap_ext. intros i [k s] Hi. simpl.
      apply list_elem_of_lookup_2 in Hi.
      destruct (Hin k s Hi) as (e & _ & Hk & -> & _). done. }
    apply NoDup_fst_map_to_list.
  - apply Forall_forall. intros s Hs. apply list_elem_of_fmap in Hs as ([k s'] & -> & Hks).
    destruct (Hin k s' Hks) as (e & _ & _ & -> & Hne). simpl.
    intros Hnil. apply fmap_nil_inv in Hnil. done.
  - rewrite length_fmap, length_map_to_list. apply newBatch_size.
  - intros s Hs. apply list_elem_of_fmap in Hs as ([k s'] & -> & Hks).
    destruct (Hin k s' Hks) as (e & He & Hk & -> & _). exists e. simpl. by rewrite Hk.
Qed.

(** ** The label set of the entry *)

(** X13: the label set of the entry that [Handle] sends is the caller's own
    map, not a copy, exactly when there are no external labels and the
    caller's labels do not have the reserved key; [Handle] then leaves the
    whole store as it was.  In every other case the entry gets a map of its
    own. *)
Theorem Handle_shares_caller_map_iff (h : store) (ls : ref) (t : Z) (s : string) :
  ls ∈ dom h →
  ((Handle h ls t s).1.2 = ls
   ↔ size (deref h (ExternalLabels c)) = 0%nat
     ∧ deref h ls !! ReservedLabelTenantID = None)
  ∧ ((Handle h ls t s).1.2 = ls →
     (Handle h ls t s).1.1 = h ∧ labels (Handle h ls t s).2 = deref h ls)
  ∧ ((Handle h ls t s).1.2 ≠ ls → (Handle h ls t s).1.2 ∉ dom h).
Proof.
  intros Hdom. unfold Handle.
  set (ext := deref h (ExternalLabels c)).
  destruct (Z.ltb_spec 0 (Z.of_nat (size ext))) as [Hpos|Hzero].
  - unfold Merge. fold ext.
    destruct (alloc_spec h (deref h ls ∪ ext)) as (Hnin1 & Hd1 & _ & Hdom1).
    destruct (alloc h (deref h ls ∪ ext)) as [h1 ls1]. cbn [fst snd] in *.
    assert (ls1 ≠ ls) as Hne1 by (intros ->; done).
    destruct (deref h1 ls1 !! ReservedLabelTenantID).
    + unfold Clone.
      destruct (alloc_spec h1 (deref h1 ls1)) as (Hnin2 & _ & _ & _).
      destruct (alloc h1 (deref h1 ls1)) as [h2 ls2]. cbn [fst snd] in *.
      assert (ls2 ∉ dom h) as Hnin by (intros Hin; apply Hnin2; by apply Hdom1).
      assert (ls2 ≠ ls) as Hne2 by (intros ->; done).
      split_and!; [split; [done|lia]|done|done].
    + cbn [fst snd]. split_and!; [split; [done|lia]|done|done].
  - assert (size ext = 0%nat) as Hsz by lia.
    destruct (deref h ls !! ReservedLabelTenantID) eqn:Hres.
    + unfold Clone.
      destruct (alloc_spec h (deref h ls)) as (Hnin2 & _ & _ & _).
      destruct (alloc h (deref h ls)) as [h2 ls2]. cbn [fst snd] in *.
      assert (ls2 ≠ ls) as Hne2 by (intros ->; done).
      split_and!; [split; [done|by intros [_ ?]]|done|done].
    + cbn [fst snd]. split_and!; [split; done|done|done].
Qed.

(** ** The size of the batches *)

Lemma total_line_bytes_app es1 es2 :
  total_line_bytes (es1 ++ es2) = total_line_bytes es1 + total_line_bytes es2.
Proof. induction es1 as [|e es1 IH]; simpl; [done|]. rewrite IH. lia. Qed.

Lemma newBatch_sizeBytes now es : sizeBytes (newBatch now es) = total_line_bytes es.
Proof. unfold sizeBytes, newBatch. rewrite fold_add_bytes. simpl. lia. Qed.

Lemma within_limit_new now e : within_limit (tenantID e) (newBatch now [e]).
Proof. exists now, [], e. split; [done|]. by intros []. Qed.

Lemma within_limit_add b e :
  within_limit (tenantID e) b → sizeBytesAfter b e ≤ BatchSize c →
  within_limit (tenantID e) (add b e).
Proof.
  intros (now & es & e0 & -> & _) Hfit. exists now, (es ++ [e0]), e. split.
  - exact (newBatch_app now (es ++ [e0]) [e]).
  - intros _. unfold sizeBytesAfter in Hfit. rewrite len_value in Hfit.
    pose proof (newBatch_sizeBytes now (es ++ [e0])) as Hsz.
    unfold sizeBytes in Hsz. lia.
Qed.

Lemma handle_was_full ev st :
  Forall was_full (flushed st) → Forall was_full (flushed (handle ev st)).
Proof.
  intros Hst. destruct ev as [e|]; simpl.
  - unfold onEntry. destruct (batches st !! tenantID e) as [b|]; [|done].
    destruct (Z.ltb_spec (BatchSize c) (sizeBytesAfter b e)) as [Hover|_]; [|done].
    simpl. apply Forall_app. split; [done|]. constructor; [|done].
    intros _. simpl. unfold sizeBytesAfter in Hover. rewrite len_value in Hover.
    unfold sizeBytes. lia.
  - destruct (checkAge_loop (map_to_list (batches st)) st)
      as (_ & news & Hfl & Hall & _).
    unfold onTick. rewrite Hfl. apply Forall_app. split; [done|].
    eapply Forall_impl; [exact Hall|]. intros fl (Hc & _) Ho. congruence.
Qed.

Lemma select_loop_was_full evs st :
  Forall was_full (flushed st) → Forall was_full (flushed (select_loop st evs)).
Proof.
  revert st. induction evs as [|[d ev] evs IH]; intros st Hst; [done|].
  apply IH. by apply handle_was_full.
Qed.

Lemma run_was_full w evs d : Forall was_full (flushed (run w evs d)).
Proof.
  unfold run, drain.
  set (st := idle d (select_loop (mkState ∅ w []) evs)).
  destruct (drain_loop (map_to_list (batches st)) st)
    as (_ & _ & drained & -> & _ & Hall).
  apply Forall_app. split.
  - apply (select_loop_was_full evs (mkState ∅ w [])). constructor.
  - eapply Forall_impl; [exact Hall|]. intros fl Hc Ho. congruence.
Qed.

(** X14: what [BatchSize] bounds.  Every batch a run hands to [sendBatch]
    with more than one entry fitted, before its last entry, in [BatchSize]
    less 2; so its size exceeds [BatchSize] by at most the length of its
    last line less 2.  A batch of a single entry has the size of its line,
    whatever [BatchSize] is.  And a batch is sent for its size only when its
    size plus 2 exceeds [BatchSize]. *)
Theorem batch_size_bound (w : World) (evs : list (N * Event)) (d : N) (fl : Flush) :
  fl ∈ flushed (run w evs d) →
  (∃ now es e,
     fl_batch fl = newBatch now (es ++ [e])
     ∧ sizeBytes (fl_batch fl) = total_line_bytes es + len_string (line_of e)
     ∧ (es ≠ [] → total_line_bytes es + 2 ≤ BatchSize c)
     ∧ (es ≠ [] → sizeBytes (fl_batch fl) ≤ BatchSize c - 2 + len_string (line_of e)))
  ∧ (fl_cause fl = Overflow → BatchSize c < sizeBytes (fl_batch fl) + 2).
Proof.
  intros Hin. split.
  - destruct (run_every_batch within_limit within_limit_new within_limit_add w evs d)
      as [_ Hall].
    rewrite Forall_forall in Hall. destruct (Hall fl Hin) as (now & es & e & Hb & Hfit).
    exists now, es, e.
    assert (sizeBytes (fl_batch fl) = total_line_bytes es + len_string (line_of e)) as Hsz.
    { rewrite Hb, newBatch_sizeBytes, total_line_bytes_app. simpl. lia. }
    split_and!; try done. intros Hne. specialize (Hfit Hne). lia.
  - pose proof (run_was_full w evs d) as Hall.
    rewrite Forall_forall in Hall. by apply Hall.
Qed.

End Facts.

(** * The model on concrete inputs *)

(** C2: on the empty batch and an entry with the five-byte line [hello],
    [sizeBytesAfter] returns 2, not the 5 that the size plus the length of
    the line gives and that [sizeBytes] is after the [add]. *)
Lemma sizeBytesAfter_ignores_line :
  let b := newBatch String_plain 0 [] in
  sizeBytesAfter b entry_hello = 2
  ∧ sizeBytes b + len_string (line_of entry_hello) = 5
  ∧ sizeBytes (add String_plain b entry_hello) = 5.
Proof. vm_compute. done. Qed.

(** C1 at work: tenant [b] has a pending batch of 10 bytes and the limit is
    10; the next entry of [b] sends that batch as it is and starts a new
    one. *)
Lemma overflow_starts_new_batch_witness :
  batches st_full !! tenantID entry_b2 = Some batch_b1
  ∧ BatchSize cfg_ex < sizeBytesAfter batch_b1 entry_b2
  ∧ flushed (onEntry String_plain Marshal_plain cfg_ex entry_b2 st_full)
    = [mkFlush "b" batch_b1 Overflow 0]
  ∧ batch_pairs (newBatch String_plain
                   (now (world (onEntry String_plain Marshal_plain cfg_ex entry_b2 st_full)))
                   [entry_b2])
    = [entry_pair String_plain entry_b2].
Proof.
  assert (batches st_full !! tenantID entry_b2 = Some batch_b1) as H1
    by (vm_compute; reflexivity).
  assert (BatchSize cfg_ex < sizeBytesAfter batch_b1 entry_b2) as H2
    by (vm_compute; reflexivity).
  pose proof (overflow_starts_new_batch String_plain Marshal_plain cfg_ex
                st_full entry_b2 batch_b1 H1 H2) as H.
  cbv zeta in H. destruct H as (Hf & _ & _ & _ & Hp & _).
  split_and!; [exact H1|exact H2|exact Hf|exact Hp].
Defined.

(** C10 at work: against the pending batch of tenant [b], a one-byte line
    and a five-byte line project to the same size, the batch's plus 2. *)
Lemma sizeBytesAfter_plus_two_witness :
  batches st_full !! tenantID entry_b2 = Some batch_b1
  ∧ sizeBytesAfter batch_b1 entry_b2 = sizeBytes batch_b1 + 2
  ∧ sizeBytesAfter batch_b1 entry_hello = sizeBytesAfter batch_b1 entry_b2.
Proof.
  assert (batches st_full !! tenantID entry_b2 = Some batch_b1) as H1
    by (vm_compute; reflexivity).
  pose proof (sizeBytesAfter_plus_two String_plain Marshal_plain cfg_ex
                st_full entry_b2 batch_b1 H1) as (Hs & He & _).
  split_and!; [exact H1|exact Hs|exact (He entry_hello)].
Defined.

(** C3 at work: the backend answers 400; one request, and the final-error
    log. *)
Lemma sendBatch_retry_rule_witness :
  encodeJSON Marshal_plain batch_hello = ("{job=app}1", 1, None)
  ∧ 0 < MaxRetries (Backoff_Config cfg_ex)
  ∧ requests (sendBatch Marshal_plain cfg_ex "t" batch_hello world_400)
    = [newRequest cfg_ex "t" "{job=app}1"]
  ∧ logs (sendBatch Marshal_plain cfg_ex "t" batch_hello world_400)
    = [LogFinalError 400 1 (ErrStatus 400)].
Proof.
  assert (encodeJSON Marshal_plain batch_hello = ("{job=app}1", 1, None)) as H1
    by (vm_compute; reflexivity).
  assert (0 < MaxRetries (Backoff_Config cfg_ex)) as H2 by (vm_compute; reflexivity).
  pose proof (sendBatch_retry_rule Marshal_plain cfg_ex "t" batch_hello
                "{job=app}1" 1 world_400 H1 H2) as H.
  cbv zeta in H. destruct H as (_ & _ & _ & H400 & _).
  destruct (H400 eq_refl) as [Hr Hl].
  split_and!; [exact H1|exact H2|exact Hr|exact Hl].
Defined.

(** C9 at work: the caller's label set has [__tenant_id__=t1]; after
    [Handle] it still has, and the entry's label set lives elsewhere. *)
Lemma Handle_keeps_caller_labels_witness :
  store_ex !! 2%positive = Some labels_t1
  ∧ (Handle cfg_ex store_ex 2 5 "line").1.1 !! 2%positive = Some labels_t1
  ∧ (Handle cfg_ex store_ex 2 5 "line").1.2 ≠ 2%positive.
Proof.
  assert (store_ex !! 2%positive = Some labels_t1) as H1 by (vm_compute; reflexivity).
  pose proof (Handle_keeps_caller_labels cfg_ex store_ex 2 5 "line" labels_t1 H1) as H.
  cbv zeta in H. destruct H as (Hk & _ & Hnew).
  assert (is_Some (labels_t1 !! ReservedLabelTenantID)) as H2
    by (exists "t1"; vm_compute; reflexivity).
  destruct (Hnew H2) as (Hne & _).
  split_and!; [exact H1|exact Hk|exact Hne].
Defined.

(** ** Where the code departs from the claims *)

(** C3 as stated fails: a connection-level failure comes back from [send] as
    status -1, which is none of 0, 429 and 5xx, and the loop goes on: a
    second request follows, and the only log line is the retry warning. *)
Lemma conn_error_is_retried :
  let status := (send cfg_ex "t" "{job=app}1" world_conn).1.2 in
  let w' := sendBatch Marshal_plain cfg_ex "t" batch_hello world_conn in
  status = -1
  ∧ ¬ (status = 0 ∨ status = 429 ∨ 500 ≤ status ≤ 599)
  ∧ leaves_loop status = false
  ∧ requests w' = [newRequest cfg_ex "t" "{job=app}1"; newRequest cfg_ex "t" "{job=app}1"]
  ∧ logs w' = [LogWillRetry (-1) 1 (Some ErrTransport)].
Proof.
  cbv zeta.
  assert ((send cfg_ex "t" "{job=app}1" world_conn).1.2 = -1) as -> by reflexivity.
  split_and!; [reflexivity|lia|reflexivity|vm_compute; reflexivity|vm_compute; reflexivity].
Qed.

(** C5 as stated fails: with [BatchWait] one second (a period of 100ms) and
    a batch size of 10 bytes, tenant [a] gets one entry at time 0 and none
    after it.  An entry of tenant [b] then overflows [b]'s batch, and the
    [sendBatch] it triggers keeps the dispatcher for five seconds (a 500,
    the backoff, a 200).  The loop never waits in [select]: the next thing
    it handles is a tick, and only that tick sends [a]'s batch, at age five
    seconds, later than [BatchWait] plus one period. *)
Lemma age_check_late_after_blocking_send :
  let st := run String_plain Marshal_plain cfg_ex world_slow events_late 0 in
  Forall (λ dev : N * Event, dev.1 = 0%N) events_late
  ∧ with_key String_plain (key_of String_plain entry_a) (entries_of events_late) = [entry_a]
  ∧ ∃ fl, flushed st !! 1%nat = Some fl
      ∧ fl_tenant fl = "a"
      ∧ fl_cause fl = Aged
      ∧ batch_pairs (fl_batch fl) = [entry_pair String_plain entry_a]
      ∧ age (fl_at fl) (fl_batch fl) = 5000 * Millisecond
      ∧ BatchWait cfg_ex + maxWaitCheckFrequency cfg_ex = 1100 * Millisecond
      ∧ BatchWait cfg_ex + maxWaitCheckFrequency cfg_ex < age (fl_at fl) (fl_batch fl).
Proof.
  cbv zeta. split; [repeat constructor|]. split; [vm_compute; reflexivity|].
  eexists. split; [vm_compute; reflexivity|].
  vm_compute. split_and!; reflexivity.
Qed.

(** C6 as stated fails: the reserved label is present with the empty value.
    The tenant of the entry is that empty value, and the request [send]
    builds for it has no [X-Scope-OrgID] header at all. *)
Lemma empty_tenant_label_sends_no_header :
  let e := (Handle cfg_ex store_empty_tenant 2 5 "line").2 in
  deref store_empty_tenant 2 !! ReservedLabelTenantID = Some ""
  ∧ tenantID e = ""
  ∧ req_header (newRequest cfg_ex (tenantID e) "payload") !! "X-Scope-OrgID" = None
  ∧ req_header (newRequest cfg_ex (tenantID e) "payload") !! "X-Scope-OrgID" ≠ Some "".
Proof.
  cbv zeta.
  assert (req_header (newRequest cfg_ex
            (tenantID (Handle cfg_ex store_empty_tenant 2 5 "line").2) "payload")
            !! "X-Scope-OrgID" = None) as Hnone by (vm_compute; reflexivity).
  split_and!; [vm_compute; reflexivity|vm_compute; reflexivity|exact Hnone|].
  rewrite Hnone. discriminate.
Qed.

(** ** The further properties on concrete inputs *)

(** X1 at work: 500, 500, then 200 with a budget of three: three requests,
    two warnings, no final error. *)
Lemma sendBatch_delivers_after_retries_witness :
  encodeJSON Marshal_plain batch_hello = ("{job=app}1", 1, None)
  ∧ server world_500_500_200 = two_500s ++ answer_200 :: []
  ∧ Forall retried two_500s
  ∧ leaves_loop (reply answer_200).1 = true
  ∧ Z.of_nat (length two_500s) < MaxRetries (Backoff_Config cfg_ex)
  ∧ sendBatch Marshal_plain cfg_ex "t" batch_hello world_500_500_200
    = mkWorld (now world_500_500_200 + duration (two_500s ++ [answer_200])) []
        (requests world_500_500_200
           ++ replicate (S (length two_500s)) (newRequest cfg_ex "t" "{job=app}1"))
        (logs world_500_500_200 ++ (warning 1 <$> two_500s)
           ++ match (reply answer_200).2 with
              | Some e => [LogFinalError (reply answer_200).1 1 e]
              | None => []
              end).
Proof.
  assert (encodeJSON Marshal_plain batch_hello = ("{job=app}1", 1, None)) as H1
    by (vm_compute; reflexivity).
  assert (server world_500_500_200 = two_500s ++ answer_200 :: []) as H2 by reflexivity.
  assert (Forall retried two_500s) as H3
    by (repeat (constructor; [vm_compute; reflexivity|]); constructor).
  assert (leaves_loop (reply answer_200).1 = true) as H4 by (vm_compute; reflexivity).
  assert (Z.of_nat (length two_500s) < MaxRetries (Backoff_Config cfg_ex)) as H5
    by (vm_compute; reflexivity).
  split_and!; [exact H1|exact H2|exact H3|exact H4|exact H5|].
  exact (sendBatch_delivers_after_retries Marshal_plain cfg_ex "t" batch_hello
           "{job=app}1" 1 world_500_500_200 two_500s answer_200 [] H1 H2 H3 H4 H5).
Defined.

(** X2 at work: three 503s use up a budget of three; the 200 that follows is
    never asked for. *)
Lemma sendBatch_exhausts_retries_witness :
  encodeJSON Marshal_plain batch_hello = ("{job=app}1", 1, None)
  ∧ 0 < MaxRetries (Backoff_Config cfg_ex)
  ∧ server world_busy = three_503s ++ [answer_200]
  ∧ length three_503s = Z.to_nat (MaxRetries (Backoff_Config cfg_ex))
  ∧ Forall retried three_503s
  ∧ ∃ xl e, last three_503s = Some xl ∧ (reply xl).2 = Some e
      ∧ sendBatch Marshal_plain cfg_ex "t" batch_hello world_busy
        = mkWorld (now world_busy + duration three_503s) [answer_200]
            (requests world_busy
               ++ replicate (length three_503s) (newRequest cfg_ex "t" "{job=app}1"))
            (logs world_busy ++ (warning 1 <$> three_503s)
               ++ [LogFinalError (reply xl).1 1 e]).
Proof.
  assert (encodeJSON Marshal_plain batch_hello = ("{job=app}1", 1, None)) as H1
    by (vm_compute; reflexivity).
  assert (0 < MaxRetries (Backoff_Config cfg_ex)) as H2 by (vm_compute; reflexivity).
  assert (server world_busy = three_503s ++ [answer_200]) as H3 by reflexivity.
  assert (length three_503s = Z.to_nat (MaxRetries (Backoff_Config cfg_ex))) as H4
    by (vm_compute; reflexivity).
  assert (Forall retried three_503s) as H5
    by (repeat (constructor; [vm_compute; reflexivity|]); constructor).
  split_and!; [exact H1|exact H2|exact H3|exact H4|exact H5|].
  exact (sendBatch_exhausts_retries Marshal_plain cfg_ex "t" batch_hello
           "{job=app}1" 1 world_busy three_503s [answer_200] H1 H2 H3 H4 H5).
Defined.

(** X6 at work: with an encoder that rejects every request, the run of the
    three test lines sends nothing. *)
Lemma encoding_failure_sends_nothing_witness :
  (∀ req, ∃ err, Marshal_refuse req = inr err)
  ∧ requests (world (run String_plain Marshal_refuse cfg_roomy world_prompt events_three 3))
    = requests world_prompt
  ∧ server (world (run String_plain Marshal_refuse cfg_roomy world_prompt events_three 3))
    = server world_prompt.
Proof.
  assert (∀ req, ∃ err, Marshal_refuse req = inr err) as H1
    by (intros req; exists ErrMarshal; reflexivity).
  destruct (encoding_failure_sends_nothing String_plain Marshal_refuse cfg_roomy
              world_prompt events_three 3 H1) as (Hreq & Hsrv & _).
  split_and!; [exact H1|exact Hreq|exact Hsrv].
Defined.

(** X7 at work: the batch the drain sends in the run of the three test lines
    is [newBatch] on a non-empty list of entries of the tenant. *)
Lemma flushed_batches_are_built_witness :
  flush_three ∈ flushed (run String_plain Marshal_plain cfg_roomy world_prompt events_three 3)
  ∧ ∃ now es,
      es ≠ []
      ∧ fl_batch flush_three = newBatch String_plain now es
      ∧ Forall (λ e, tenantID e = fl_tenant flush_three) es
      ∧ (createPushRequest (fl_batch flush_three)).2 = Z.of_nat (length es)
      ∧ 1 ≤ (createPushRequest (fl_batch flush_three)).2
      ∧ sizeBytes (fl_batch flush_three) = total_line_bytes es.
Proof.
  assert (flush_three
          ∈ flushed (run String_plain Marshal_plain cfg_roomy world_prompt events_three 3))
    as H1 by (vm_compute; left).
  split; [exact H1|].
  exact (flushed_batches_are_built String_plain Marshal_plain cfg_roomy
           world_prompt events_three 3 flush_three H1).
Defined.

(** X8 at work: with a [BatchWait] of zero, a tick after the three test
    lines leaves nothing pending. *)
Lemma nonpositive_wait_flushes_all_witness :
  BatchWait cfg_nowait ≤ 0
  ∧ batches (onTick Marshal_plain cfg_nowait
               (idle 3 (select_loop String_plain Marshal_plain cfg_nowait
                          (mkState ∅ world_prompt []) events_three)))
    = ∅.
Proof.
  assert (BatchWait cfg_nowait ≤ 0) as H1 by (vm_compute; discriminate).
  destruct (nonpositive_wait_flushes_all String_plain Marshal_plain cfg_nowait
              world_prompt events_three 3 H1) as (Hempty & _).
  split; [exact H1|exact Hempty].
Defined.

(** X10 at work: two ticks and no entry; only the twelve nanoseconds of
    waiting and the three before the quit signal have passed. *)
Lemma run_without_entries_witness :
  entries_of events_ticks = []
  ∧ ∃ dt, run String_plain Marshal_plain cfg_ex world_prompt events_ticks 3
          = mkState ∅ (sleep dt world_prompt) [].
Proof.
  assert (entries_of events_ticks = []) as H1 by reflexivity.
  split; [exact H1|].
  exact (run_without_entries String_plain Marshal_plain cfg_ex world_prompt
           events_ticks 3 H1).
Defined.

(** X11 at work: the batch of tenant [b] was created at the present instant
    and [BatchWait] is one second: a tick changes nothing. *)
Lemma onTick_nothing_due_witness :
  (∀ t b, batches st_full !! t = Some b → age (now (world st_full)) b < BatchWait cfg_ex)
  ∧ onTick Marshal_plain cfg_ex st_full = st_full.
Proof.
  assert (∀ t b, batches st_full !! t = Some b →
                 age (now (world st_full)) b < BatchWait cfg_ex) as H1.
  { intros t b Hb. unfold st_full in Hb. simpl in Hb.
    apply lookup_singleton_Some in Hb as [_ <-]. vm_compute. reflexivity. }
  split; [exact H1|].
  exact (onTick_nothing_due Marshal_plain cfg_ex st_full H1).
Defined.

(** X13 at work: the caller's label set has the reserved key, so the entry
    gets a map of its own, at an address not in the store before. *)
Lemma Handle_shares_caller_map_iff_witness :
  2%positive ∈ dom store_ex
  ∧ (Handle cfg_ex store_ex 2 5 "line").1.2 ≠ 2%positive
  ∧ (Handle cfg_ex store_ex 2 5 "line").1.2 ∉ dom store_ex.
Proof.
  assert (2%positive ∈ dom store_ex) as H1
    by (apply elem_of_dom; exists labels_t1; vm_compute; reflexivity).
  destruct (Handle_shares_caller_map_iff cfg_ex store_ex 2 5 "line" H1)
    as (Hiff & _ & Hfresh).
  assert ((Handle cfg_ex store_ex 2 5 "line").1.2 ≠ 2%positive) as H2.
  { intros Heq. apply Hiff in Heq as [_ Hnone]. vm_compute in Hnone. discriminate. }
  split_and!; [exact H1|exact H2|exact (Hfresh H2)].
Defined.

(** X14 at work: the batch of the three test lines holds 33 bytes; before
    its last line it held 22, which with 2 more fits the limit of 1024. *)
Lemma batch_size_bound_witness :
  flush_three ∈ flushed (run String_plain Marshal_plain cfg_roomy world_prompt events_three 3)
  ∧ (fl_cause flush_three = Overflow →
     BatchSize cfg_roomy < sizeBytes (fl_batch flush_three) + 2)
  ∧ ∃ now es e,
      fl_batch flush_three = newBatch String_plain now (es ++ [e])
      ∧ sizeBytes (fl_batch flush_three) = total_line_bytes es + len_string (line_of e)
      ∧ (es ≠ [] → total_line_bytes es + 2 ≤ BatchSize cfg_roomy)
      ∧ (es ≠ [] →
         sizeBytes (fl_batch flush_three) ≤ BatchSize cfg_roomy - 2 + len_string (line_of e)).
Proof.
  assert (flush_three
          ∈ flushed (run String_plain Marshal_plain cfg_roomy world_prompt events_three 3))
    as H1 by (vm_compute; left).
  destruct (batch_size_bound String_plain Marshal_plain cfg_roomy
              world_prompt events_three 3 flush_three H1) as (Hb & Ho).
  split_and!; [exact H1|exact Ho|exact Hb].
Defined.

(** ** The scenarios of the specification *)

(** Three entries with the same labels and small lines: one request, whose
    push request has one stream with the three values in arrival order. *)
Example three_entries_one_stream :
  let st := run String_plain Marshal_plain cfg_roomy world_prompt events_three 3 in
  (λ fl, createPushRequest (fl_batch fl)) <$> flushed st
    = [(mkPushRequest
          [mkStream {[ "local_dev" := "host" ]}
                    [ [# "1"; "line test 1"]; [# "2"; "line test 2"]; [# "3"; "line test 3"] ]],
        3)]
  ∧ length (requests (world st)) = 1%nat
  ∧ logs (world st) = [].
Proof. vm_compute. done. Qed.

(** The backend answers 500 twice, then 200: three requests, two warnings
    and no final error. *)
Example retry_500_500_200 :
  let w' := sendBatch Marshal_plain cfg_ex "t" batch_hello world_500_500_200 in
  length (requests w') = 3%nat
  ∧ logs w' = [LogWillRetry 500 1 (Some (ErrStatus 500));
               LogWillRetry 500 1 (Some (ErrStatus 500))].
Proof. vm_compute. done. Qed.

(** The entry carries [__tenant_id__=t1]: the request has [X-Scope-OrgID: t1]
    and the labels of the entry have lost the reserved label. *)
Example tenant_override :
  let e := (Handle cfg_ex store_ex 2 5 "line").2 in
  req_header (newRequest cfg_ex (tenantID e) "payload") !! "X-Scope-OrgID" = Some "t1"
  ∧ labels e = {[ "job" := "app" ]}
  ∧ value e = [# "5"; "line"].
Proof. vm_compute. done. Qed.
